(** * A raycasting engine over a tile grid: map, player and DDA raycaster

    Shallow embedding of [main.py].  Python's [float] values are idealised:
    a finite float is a real number ([R]) and arithmetic on finite values is
    exact, so that rounding, overflow of finite results and the sign of zero
    are left out, and [math.cos], [math.sin] and [math.pi] are the real
    [cos], [sin] and [PI].  The values [inf], [-inf] and [nan], which the
    raycaster creates on purpose for axis-aligned rays, are kept as separate
    constructors of [float].  Python's [int] is [Z].  Exceptions are explicit
    outcomes.  The positions and angles of the player are finite. *)

From Stdlib Require Import ZArith List Bool Reals Lra Lia.
From Stdlib Require Import Zfloor.
Import ListNotations.

Local Open Scope Z_scope.

(** ** Outcomes of a Python call *)

Inductive exn : Set :=
| ZeroDivisionError
| ValueError
| OverflowError
| IndexError.

(** [OutOfFuel] is not a Python outcome: it marks a loop of the model that was
    given too few iterations to finish. *)
Inductive outcome (A : Type) : Type :=
| Ret (a : A)
| Raise (e : exn)
| OutOfFuel.

Arguments Ret {A} a.
Arguments Raise {A} e.
Arguments OutOfFuel {A}.

Definition bind {A B : Type} (c : outcome A) (k : A -> outcome B) : outcome B :=
  match c with
  | Ret a => k a
  | Raise e => Raise e
  | OutOfFuel => OutOfFuel
  end.

Notation "x <- c ;; k" := (bind c (fun x => k))
  (at level 61, c at next level, right associativity).
Notation "' p <- c ;; k" := (bind c (fun p => k))
  (at level 61, p pattern, c at next level, right associativity).

(** ** Numbers *)

(** A Python float: a finite value or one of the three special values. *)
Inductive float : Type :=
| Fin (r : R)
| PInf
| NInf
| NaN.

Definition fopp (a : float) : float :=
  match a with
  | Fin r => Fin (- r)
  | PInf => NInf
  | NInf => PInf
  | NaN => NaN
  end.

Definition fadd (a b : float) : float :=
  match a, b with
  | Fin r, Fin s => Fin (r + s)
  | NaN, _ | _, NaN => NaN
  | PInf, NInf | NInf, PInf => NaN
  | PInf, _ | _, PInf => PInf
  | NInf, _ | _, NInf => NInf
  end.

Definition fsub (a b : float) : float := fadd a (fopp b).

(** The infinity of the sign of [r], [nan] at zero. *)
Definition inf_signed (r : R) (pos : bool) : float :=
  if Rlt_dec 0 r then (if pos then PInf else NInf)
  else if Rlt_dec r 0 then (if pos then NInf else PInf)
  else NaN.

Definition fmul (a b : float) : float :=
  match a, b with
  | Fin r, Fin s => Fin (r * s)
  | NaN, _ | _, NaN => NaN
  | Fin r, PInf | PInf, Fin r => inf_signed r true
  | Fin r, NInf | NInf, Fin r => inf_signed r false
  | PInf, PInf | NInf, NInf => PInf
  | PInf, NInf | NInf, PInf => NaN
  end.

(** [a / b] on floats raises on a zero divisor. *)
Definition fdiv (a b : float) : outcome float :=
  match a, b with
  | _, Fin s =>
      if Req_dec_T s 0 then Raise ZeroDivisionError
      else match a with
           | Fin r => Ret (Fin (r / s))
           | PInf => Ret (inf_signed s true)
           | NInf => Ret (inf_signed s false)
           | NaN => Ret NaN
           end
  | NaN, _ | _, NaN => Ret NaN
  | Fin _, _ => Ret (Fin 0)
  | _, _ => Ret NaN
  end.

(** [a < b]; every comparison with [nan] is false. *)
Definition flt (a b : float) : bool :=
  match a, b with
  | Fin r, Fin s => if Rlt_dec r s then true else false
  | NaN, _ | _, NaN => false
  | NInf, NInf | PInf, _ => false
  | NInf, _ => true
  | Fin _, PInf => true
  | Fin _, NInf => false
  end.

(** The builtin [max(a, b)] of two arguments keeps [a] unless [b > a]. *)
Definition py_max (a b : float) : float := if flt a b then b else a.

(** Truncation toward zero. *)
Definition Ztrunc (r : R) : Z := if Rle_dec 0 r then Zfloor r else Zceil r.

(** [int(a)] of a float. *)
Definition py_int (a : float) : outcome Z :=
  match a with
  | Fin r => Ret (Ztrunc r)
  | PInf | NInf => Raise OverflowError
  | NaN => Raise ValueError
  end.

(** [a // b] of two finite floats with [b] not zero, the floor of the quotient. *)
Definition py_floordiv (a b : R) : R := IZR (Zfloor (a / b)).

(** [int(a)] of a finite float. *)
Definition int_of (a : R) : Z := Ztrunc a.

(** [a % b] of two finite floats with [b] not zero: the remainder that goes
    with the floor of the quotient, so that it has the sign of [b]. *)
Definition py_mod (a b : R) : R := (a - IZR (Zfloor (a / b)) * b)%R.

(** Indexing a list: a negative index counts from the end, an index out of
    range raises. *)
Definition py_index {A : Type} (l : list A) (i : Z) : outcome A :=
  let n := Z.of_nat (length l) in
  let j := if i <? 0 then i + n else i in
  if (0 <=? j) && (j <? n) then
    match nth_error l (Z.to_nat j) with
    | Some v => Ret v
    | None => Raise IndexError
    end
  else Raise IndexError.

(** [range(n)] *)
Definition py_range (n : Z) : list Z := map Z.of_nat (seq 0 (Z.to_nat n)).

(** ** Constants *)

Definition SCREEN_WIDTH : Z := 1280.
Definition SCREEN_HEIGHT : Z := 720.
Definition FOV : R := PI / 3.
Definition NUM_RAYS : Z := SCREEN_WIDTH.
Definition TILE_SIZE : Z := 64.
Definition FISHEYE_CORRECTION : bool := true.

(** ** class Map *)

Module Map.

Definition WALL : Z := 1.
Definition EMPTY : Z := 0.

Record t : Type := mk {
  grid : list (list Z);
  num_rows : Z;
  num_cols : Z
}.

(** The layout that [Map.__init__] installs. *)
Definition layout : list (list Z) :=
  [ [1; 1; 1; 1; 1; 1; 1; 1; 1; 1; 1; 1; 1; 1; 1; 1];
    [1; 0; 0; 0; 0; 0; 0; 0; 0; 0; 0; 0; 0; 0; 0; 1];
    [1; 0; 1; 0; 1; 0; 0; 0; 0; 0; 0; 0; 0; 0; 0; 1];
    [1; 0; 1; 1; 1; 0; 1; 1; 1; 1; 0; 1; 1; 1; 1; 1];
    [1; 0; 1; 1; 1; 0; 0; 0; 0; 0; 0; 1; 0; 1; 0; 1];
    [1; 0; 1; 1; 1; 0; 0; 0; 0; 0; 0; 0; 0; 1; 0; 1];
    [1; 0; 1; 1; 0; 0; 1; 1; 1; 0; 1; 1; 1; 1; 0; 1];
    [1; 0; 0; 0; 0; 0; 1; 0; 1; 0; 0; 1; 0; 1; 0; 1];
    [1; 0; 1; 1; 1; 0; 1; 1; 1; 0; 0; 1; 0; 0; 0; 1];
    [1; 0; 1; 0; 0; 0; 0; 1; 0; 0; 0; 1; 0; 1; 0; 1];
    [1; 0; 1; 1; 0; 0; 0; 1; 0; 0; 1; 0; 0; 1; 0; 1];
    [1; 0; 1; 0; 1; 0; 0; 1; 0; 1; 1; 0; 0; 1; 0; 1];
    [1; 0; 1; 0; 1; 0; 0; 0; 0; 0; 0; 0; 0; 1; 0; 1];
    [1; 0; 1; 1; 1; 0; 1; 1; 1; 1; 0; 0; 0; 0; 0; 1];
    [1; 0; 0; 0; 0; 0; 0; 0; 0; 0; 0; 0; 0; 1; 0; 1];
    [1; 1; 1; 1; 1; 1; 1; 1; 1; 1; 1; 1; 1; 1; 1; 1] ].

(** The body of [__init__] for a given layout: [num_rows = len(grid)] and
    [num_cols = len(grid[0])]. *)
Definition of_grid (g : list (list Z)) : outcome t :=
  row0 <- py_index g 0 ;;
  Ret {| grid := g;
         num_rows := Z.of_nat (length g);
         num_cols := Z.of_nat (length row0) |}.

Definition __init__ : outcome t := of_grid layout.

(** The map of the game, [Map()]. *)
Definition game_map : t :=
  {| grid := layout; num_rows := 16; num_cols := 16 |}.

Definition get_tile (self : t) (col row : Z) : outcome Z :=
  if (0 <=? row) && (row <? num_rows self)
     && ((0 <=? col) && (col <? num_cols self)) then
    r <- py_index (grid self) row ;;
    py_index r col
  else Ret WALL.

Definition is_wall (self : t) (world_x world_y : R) : outcome bool :=
  let grid_col := int_of (py_floordiv world_x (IZR TILE_SIZE)) in
  let grid_row := int_of (py_floordiv world_y (IZR TILE_SIZE)) in
  tile <- get_tile self grid_col grid_row ;;
  Ret (tile =? WALL).

(** A map as [__init__] builds it from a rectangular layout. *)
Definition rectangular (self : t) : bool :=
  (num_rows self =? Z.of_nat (length (grid self)))
  && forallb (fun r => Z.of_nat (length r) =? num_cols self) (grid self).

(** The tile the layout stores at a coordinate, if any. *)
Definition stored (self : t) (col row : Z) : option Z :=
  match nth_error (grid self) (Z.to_nat row) with
  | Some r => nth_error r (Z.to_nat col)
  | None => None
  end.

End Map.

(** ** class Player *)

Module Player.

Definition MOVE_SPEED : R := 15 / 10.
Definition ROT_SPEED : R := 3 / 10000.
Definition MARGIN : Z := 10.

Record t : Type := mk {
  x : R;
  y : R;
  angle : R
}.

Definition _try_move (self : t) (delta_x delta_y : R) (game_map : Map.t)
  : outcome t :=
  let m := IZR MARGIN in
  (* x_clear: [and] evaluates its right operand only when the left is true *)
  w1 <- Map.is_wall game_map (x self + delta_x) (y self - m) ;;
  x_clear <- (if negb w1 then
                w2 <- Map.is_wall game_map (x self + delta_x) (y self + m) ;;
                Ret (negb w2)
              else Ret false) ;;
  let self1 :=
    if (x_clear : bool) then mk (x self + delta_x) (y self) (angle self)
    else self in
  w3 <- Map.is_wall game_map (x self1 - m) (y self1 + delta_y) ;;
  y_clear <- (if negb w3 then
                w4 <- Map.is_wall game_map (x self1 + m) (y self1 + delta_y) ;;
                Ret (negb w4)
              else Ret false) ;;
  Ret (if (y_clear : bool) then mk (x self1) (y self1 + delta_y) (angle self1)
       else self1).

(** The four movement keys that [handle_input] reads from the sequence
    returned by [pygame.key.get_pressed()]. *)
Record keys : Type := mk_keys {
  K_w : bool;
  K_s : bool;
  K_a : bool;
  K_d : bool
}.

Definition handle_input (self : t) (keys : keys) (game_map : Map.t)
  (mouse_dx : Z) : outcome t :=
  let self0 :=
    mk (x self) (y self)
       (py_mod (angle self + IZR mouse_dx * ROT_SPEED) (2 * PI)) in
  let forward_dx := (cos (angle self0) * MOVE_SPEED)%R in
  let forward_dy := (sin (angle self0) * MOVE_SPEED)%R in
  self1 <- (if K_w keys then _try_move self0 forward_dx forward_dy game_map
            else Ret self0) ;;
  self2 <- (if K_s keys
            then _try_move self1 (- forward_dx) (- forward_dy) game_map
            else Ret self1) ;;
  self3 <- (if K_a keys then _try_move self2 forward_dy (- forward_dx) game_map
            else Ret self2) ;;
  if K_d keys then _try_move self3 (- forward_dy) forward_dx game_map
  else Ret self3.

End Player.

(** ** class Raycaster *)

Module Raycaster.

Definition MAX_DEPTH : Z := 20.

Record t : Type := mk {
  screen_width : Z;
  screen_height : Z;
  half_height : Z;
  fov : R;
  half_fov : R
}.

Definition __init__ (screen_width screen_height : Z) (fov : R) : t :=
  {| screen_width := screen_width;
     screen_height := screen_height;
     half_height := screen_height / 2;
     fov := fov;
     half_fov := (fov / 2)%R |}.

(** The variables that the DDA loop of [_cast_ray] updates. *)
Record dda : Type := mk_dda {
  side_dist_x : float;
  side_dist_y : float;
  map_col : Z;
  map_row : Z;
  hit_side : Z;
  wall_hit : bool;
  depth : Z
}.

(** What the loop reads and never writes. *)
Record ray : Type := mk_ray {
  delta_dist_x : float;
  delta_dist_y : float;
  step_x : Z;
  step_y : Z
}.

(** The loop test, [not wall_hit and depth < MAX_DEPTH]. *)
Definition dda_test (max_depth : Z) (s : dda) : bool :=
  negb (wall_hit s) && (depth s <? max_depth).

(** One pass through the loop body. *)
Definition dda_body (game_map : Map.t) (r : ray) (s : dda) : outcome dda :=
  let s1 :=
    if flt (side_dist_x s) (side_dist_y s) then
      mk_dda (fadd (side_dist_x s) (delta_dist_x r)) (side_dist_y s)
             (map_col s + step_x r) (map_row s) 0 (wall_hit s) (depth s)
    else
      mk_dda (side_dist_x s) (fadd (side_dist_y s) (delta_dist_y r))
             (map_col s) (map_row s + step_y r) 1 (wall_hit s) (depth s) in
  tile <- Map.get_tile game_map (map_col s1) (map_row s1) ;;
  Ret (mk_dda (side_dist_x s1) (side_dist_y s1) (map_col s1) (map_row s1)
              (hit_side s1)
              (if tile =? Map.WALL then true else wall_hit s1)
              (depth s1 + 1)).

(** The [while] loop, run for at most [fuel] passes. *)
Fixpoint dda_loop (fuel : nat) (max_depth : Z) (game_map : Map.t) (r : ray)
  (s : dda) : outcome dda :=
  if dda_test max_depth s then
    match fuel with
    | O => OutOfFuel
    | S fuel' =>
        s' <- dda_body game_map r s ;;
        dda_loop fuel' max_depth game_map r s'
    end
  else Ret s.

(** The same loop, also counting the passes it made. *)
Fixpoint dda_steps (fuel : nat) (max_depth : Z) (game_map : Map.t) (r : ray)
  (s : dda) : outcome (dda * nat) :=
  if dda_test max_depth s then
    match fuel with
    | O => OutOfFuel
    | S fuel' =>
        s' <- dda_body game_map r s ;;
        '(s'', n) <- dda_steps fuel' max_depth game_map r s' ;;
        Ret (s'', S n)
    end
  else Ret (s, O).

(** Step distances, step directions and the loop variables before the loop. *)
Definition ray_setup (ray_angle : R) (player : Player.t) : ray * dda :=
  let ray_dx := cos ray_angle in
  let ray_dy := sin ray_angle in
  let map_col := int_of (py_floordiv (Player.x player) (IZR TILE_SIZE)) in
  let map_row := int_of (py_floordiv (Player.y player) (IZR TILE_SIZE)) in
  let delta_dist_x :=
    if Req_dec_T ray_dx 0 then PInf else Fin (Rabs (1 / ray_dx)) in
  let delta_dist_y :=
    if Req_dec_T ray_dy 0 then PInf else Fin (Rabs (1 / ray_dy)) in
  let '(step_x, side_dist_x) :=
    if Rlt_dec ray_dx 0 then
      (-1, fmul (Fin (Player.x player / IZR TILE_SIZE - IZR map_col))
                delta_dist_x)
    else
      (1, fmul (Fin (IZR map_col + 1 - Player.x player / IZR TILE_SIZE))
               delta_dist_x) in
  let '(step_y, side_dist_y) :=
    if Rlt_dec ray_dy 0 then
      (-1, fmul (Fin (Player.y player / IZR TILE_SIZE - IZR map_row))
                delta_dist_y)
    else
      (1, fmul (Fin (IZR map_row + 1 - Player.y player / IZR TILE_SIZE))
               delta_dist_y) in
  (mk_ray delta_dist_x delta_dist_y step_x step_y,
   mk_dda side_dist_x side_dist_y map_col map_row 0 false 0).

(** The distance of the hit, clamped away from zero. *)
Definition perp_dist (r : ray) (s : dda) : float :=
  let perp_dist :=
    if hit_side s =? 0 then
      fmul (fsub (side_dist_x s) (delta_dist_x r)) (Fin (IZR TILE_SIZE))
    else
      fmul (fsub (side_dist_y s) (delta_dist_y r)) (Fin (IZR TILE_SIZE)) in
  py_max perp_dist (Fin (1 / 10000)).

(** The distance used for rendering, by the fisheye toggle. *)
Definition render_distance (fisheye : bool) (perp_dist : float)
  (ray_angle player_angle : R) : outcome float :=
  if fisheye then Ret perp_dist
  else
    let angle_diff := (ray_angle - player_angle)%R in
    fdiv perp_dist (Fin (cos angle_diff)).

Definition wall_height_of (self : t) (distance : float) : outcome Z :=
  q <- fdiv (Fin (IZR TILE_SIZE)) distance ;;
  py_int (fmul q (Fin (IZR (screen_height self)))).

Definition shade_of (distance : float) : outcome Z :=
  tile_dist <- fdiv distance (Fin (IZR TILE_SIZE)) ;;
  v <- py_int (fmul tile_dist (Fin 18)) ;;
  Ret (Z.max 40 (Z.min 255 (255 - v))).

(** [_cast_ray] up to the assignment of [distance]; also the loop variables
    at that point. *)
Definition cast_distance (fisheye : bool) (max_depth : Z)
  (ray_angle player_angle : R) (player : Player.t) (game_map : Map.t)
  : outcome (float * dda) :=
  let '(r, s0) := ray_setup ray_angle player in
  s <- dda_loop (Z.to_nat max_depth) max_depth game_map r s0 ;;
  distance <- render_distance fisheye (perp_dist r s) ray_angle player_angle ;;
  Ret (distance, s).

Definition _cast_ray_with (fisheye : bool) (max_depth : Z) (self : t)
  (ray_angle player_angle : R) (player : Player.t) (game_map : Map.t)
  : outcome (Z * Z * Z) :=
  '(distance, s) <- cast_distance fisheye max_depth ray_angle player_angle
                                  player game_map ;;
  wall_height <- wall_height_of self distance ;;
  shade <- shade_of distance ;;
  Ret (wall_height, shade, hit_side s).

(** [_cast_ray] with the toggle and the depth limit of the source. *)
Definition _cast_ray (self : t) (ray_angle player_angle : R)
  (player : Player.t) (game_map : Map.t) : outcome (Z * Z * Z) :=
  _cast_ray_with FISHEYE_CORRECTION MAX_DEPTH self ray_angle player_angle
                 player game_map.

(** The angle of the ray of a column. *)
Definition ray_angle_of (start_angle angle_step : R) (col : Z) : R :=
  (start_angle + IZR col * angle_step)%R.

(** One pass of the [for] loop of [cast_all]: the entry appended for [col]. *)
Definition cast_column (self : t) (player : Player.t) (game_map : Map.t)
  (start_angle angle_step : R) (col : Z) : outcome (Z * Z) :=
  let ray_angle := ray_angle_of start_angle angle_step col in
  '(wall_height, shade, hit_side) <-
    _cast_ray self ray_angle (Player.angle player) player game_map ;;
  shade' <- (if hit_side =? 1 then py_int (fmul (Fin (IZR shade)) (Fin (3 / 4)))
             else Ret shade) ;;
  Ret (wall_height, shade').

(** The [for] loop, appending to [ray_results]. *)
Fixpoint cast_columns (self : t) (player : Player.t) (game_map : Map.t)
  (start_angle angle_step : R) (cols : list Z) (ray_results : list (Z * Z))
  : outcome (list (Z * Z)) :=
  match cols with
  | [] => Ret ray_results
  | col :: cols' =>
      e <- cast_column self player game_map start_angle angle_step col ;;
      cast_columns self player game_map start_angle angle_step cols'
                   (ray_results ++ [e])
  end.

Definition cast_all (self : t) (player : Player.t) (game_map : Map.t)
  : outcome (list (Z * Z)) :=
  angle_step <- (if Z.eqb (screen_width self) 0 then Raise ZeroDivisionError
                 else Ret (fov self / IZR (screen_width self))%R) ;;
  let start_angle := (Player.angle player - half_fov self)%R in
  cast_columns self player game_map start_angle angle_step
               (py_range (screen_width self)) [].

End Raycaster.

(** ** class Renderer *)

Module Renderer.

Definition colour : Type := (Z * Z * Z)%type.

(** A call of [pygame.draw.line(screen, colour, (x1, y1), (x2, y2))]. *)
Record line : Type := mk_line {
  line_colour : colour;
  x1 : Z;
  y1 : Z;
  x2 : Z;
  y2 : Z
}.

(** The attributes that the drawing of walls reads; the screen and the font
    are pygame objects. *)
Record t : Type := mk {
  width : Z;
  height : Z;
  half_height : Z
}.

(** [__init__] for a screen of the given size. *)
Definition __init__ (screen_width screen_height : Z) : t :=
  {| width := screen_width;
     height := screen_height;
     half_height := screen_height / 2 |}.

(** The loop of [draw_walls] from column [screen_x] on: the lines it draws,
    in order. *)
Fixpoint draw_walls_from (self : t) (screen_x : Z) (ray_results : list (Z * Z))
  : list line :=
  match ray_results with
  | [] => []
  | (wall_height, shade) :: rest =>
      let wall_colour := (shade, shade, shade) in
      let wall_top := half_height self - wall_height / 2 in
      let wall_bottom := half_height self + wall_height / 2 in
      mk_line wall_colour screen_x wall_top screen_x wall_bottom
      :: draw_walls_from self (screen_x + 1) rest
  end.

Definition draw_walls (self : t) (ray_results : list (Z * Z)) : list line :=
  draw_walls_from self 0 ray_results.

End Renderer.

(** ** class Game *)

Module Game.

(** The events that [_handle_events] tells apart. *)
Inductive event : Type :=
| QUIT
| KEYDOWN (key : Z)
| MOUSEMOTION (rel_x rel_y : Z)
| OTHER.

(** [pygame.K_ESCAPE] *)
Definition K_ESCAPE : Z := 27.

(** [_handle_events] returns the accumulated motion, or [_quit] ends the
    process through [sys.exit()]. *)
Inductive handled : Type :=
| SystemExit
| Return (total_mouse_dx : Z).

(** The loop over [pygame.event.get()]. *)
Fixpoint handle_events_from (events : list event) (total_mouse_dx : Z)
  : handled :=
  match events with
  | [] => Return total_mouse_dx
  | QUIT :: _ => SystemExit
  | KEYDOWN key :: rest =>
      if key =? K_ESCAPE then SystemExit
      else handle_events_from rest total_mouse_dx
  | MOUSEMOTION rel_x _ :: rest =>
      handle_events_from rest (total_mouse_dx + rel_x)
  | OTHER :: rest => handle_events_from rest total_mouse_dx
  end.

Definition _handle_events (events : list event) : handled :=
  handle_events_from events 0.

End Game.


(** The raycaster and the starting player that [Game.__init__] creates. *)
Definition game_raycaster : Raycaster.t :=
  Raycaster.__init__ SCREEN_WIDTH SCREEN_HEIGHT FOV.
Definition game_player : Player.t :=
  Player.mk (IZR TILE_SIZE * (15 / 10)) (IZR TILE_SIZE * (15 / 10)) (3 / 10).

Local Open Scope R_scope.

(** ** Vocabulary of the properties *)

(** A probe of [_try_move]: the point is inside a wall tile, or is not. *)
Definition blocked (m : Map.t) (wx wy : R) : Prop := Map.is_wall m wx wy = Ret true.
Definition clear (m : Map.t) (wx wy : R) : Prop := Map.is_wall m wx wy = Ret false.

(** One axis of the traversal for a direction component of absolute value
    [a]: the step distance is [1/a] and the side distance [k/a], both infinite
    when the component is zero. *)
Definition axis (a : R) (delta side : float) (k : R) : Prop :=
  (a = 0 /\ delta = PInf /\ side = PInf)
  \/ (0 < a /\ delta = Fin (/ a) /\ side = Fin (k / a)).

(** The state of the loop after [n] passes, for a ray of direction
    components of absolute values [a] and [b]. *)
Definition dda_inv (a b : R) (r : Raycaster.ray) (s : Raycaster.dda) (n : Z)
  : Prop :=
  exists kx ky : R,
    0 <= kx /\ 0 <= ky /\ kx + ky <= IZR n + 2
    /\ axis a (Raycaster.delta_dist_x r) (Raycaster.side_dist_x s) kx
    /\ axis b (Raycaster.delta_dist_y r) (Raycaster.side_dist_y s) ky
    /\ Raycaster.depth s = n
    /\ (Raycaster.hit_side s = 0%Z \/ Raycaster.hit_side s = 1%Z)
    /\ ((0 < n)%Z ->
        exists p, 0 <= p <= IZR n + 1
          /\ ((Raycaster.hit_side s = 0%Z
               /\ fsub (Raycaster.side_dist_x s) (Raycaster.delta_dist_x r) = Fin p)
              \/ (Raycaster.hit_side s = 1%Z
                  /\ fsub (Raycaster.side_dist_y s) (Raycaster.delta_dist_y r)
                     = Fin p))).

(** The four directions along an axis; [y] grows downwards on the map. *)
Inductive heading : Set := East | South | West | North.

Definition heading_angle (h : heading) : R :=
  match h with
  | East => 0
  | South => PI / 2
  | West => PI
  | North => 3 * (PI / 2)
  end.

Definition heading_dx (h : heading) : Z :=
  match h with East => 1 | West => -1 | _ => 0 end.
Definition heading_dy (h : heading) : Z :=
  match h with South => 1 | North => -1 | _ => 0 end.

(** The tile of a map whose outer ring is [WALL] and whose interior is
    [EMPTY]. *)
Definition ring_tile (m : Map.t) (c r : Z) : Z :=
  if (c =? 0)%Z || (c =? Map.num_cols m - 1)%Z
     || (r =? 0)%Z || (r =? Map.num_rows m - 1)%Z
  then Map.WALL else Map.EMPTY.

Definition is_ring (m : Map.t) : bool :=
  Map.rectangular m
  && forallb (fun r =>
       forallb (fun c =>
         match Map.stored m c r with
         | Some t => (t =? ring_tile m c r)%Z
         | None => false
         end) (py_range (Map.num_cols m))) (py_range (Map.num_rows m)).

(** In a ring map, the number of tiles from an interior cell to the wall
    ahead. *)
Definition tiles_to_wall (m : Map.t) (c r : Z) (h : heading) : Z :=
  match h with
  | East => Map.num_cols m - 1 - c
  | West => c
  | South => Map.num_rows m - 1 - r
  | North => r
  end.

Definition ring3 : Map.t :=
  {| Map.grid := [ [1; 1; 1]; [1; 0; 1]; [1; 1; 1] ]%Z;
     Map.num_rows := 3; Map.num_cols := 3 |}.

Definition ring5 : Map.t :=
  {| Map.grid := [ [1; 1; 1; 1; 1]; [1; 0; 0; 0; 1]; [1; 0; 0; 0; 1];
                   [1; 0; 0; 0; 1]; [1; 1; 1; 1; 1] ]%Z;
     Map.num_rows := 5; Map.num_cols := 5 |}.

(** The shade that [_cast_ray] derives from a finite distance. *)
Definition shade_value (q : R) : Z :=
  Z.max 40 (Z.min 255 (255 - Ztrunc (q / 64 * 18))).

(** The entry that [cast_all] appends for a column: the ray of the column
    returns a height, a shade between 40 and 255 and a face, from a distance
    of at most [MAX_DEPTH + 1] tiles, and the shade of a north or south face
    is darkened. *)
Definition column_entry (self : Raycaster.t) (player : Player.t) (m : Map.t)
  (start_angle angle_step : R) (col : Z) (e : Z * Z) : Prop :=
  exists (q : R) (side : Z),
    1 / 10000 <= q <= 64 * (IZR Raycaster.MAX_DEPTH + 1)
    /\ (side = 0 \/ side = 1)%Z
    /\ Raycaster._cast_ray self
         (Raycaster.ray_angle_of start_angle angle_step col)
         (Player.angle player) player m
       = Ret (Ztrunc (64 / q * IZR (Raycaster.screen_height self)),
              shade_value q, side)
    /\ Raycaster.cast_column self player m start_angle angle_step col = Ret e
    /\ e = (Ztrunc (64 / q * IZR (Raycaster.screen_height self)),
            if (side =? 1)%Z then Ztrunc (IZR (shade_value q) * (3 / 4))
            else shade_value q).

(** The number of movement keys held down. *)
Definition keys_down (k : Player.keys) : Z :=
  Z.b2z (Player.K_w k) + Z.b2z (Player.K_s k)
  + Z.b2z (Player.K_a k) + Z.b2z (Player.K_d k).

(** The player after the successive frames of [Game.run], each of which calls
    [handle_input] once with the keys and the mouse motion of the frame. *)
Fixpoint handle_inputs (inputs : list (Player.keys * Z)) (player : Player.t)
  (game_map : Map.t) : outcome Player.t :=
  match inputs with
  | [] => Ret player
  | (keys, mouse_dx) :: rest =>
      player' <- Player.handle_input player keys game_map mouse_dx ;;
      handle_inputs rest player' game_map
  end.

(** Whether an event makes [_handle_events] quit, and the horizontal motion
    it carries. *)
Definition is_quit (e : Game.event) : bool :=
  match e with
  | Game.QUIT => true
  | Game.KEYDOWN key => (key =? Game.K_ESCAPE)%Z
  | _ => false
  end.

Definition motion_x (e : Game.event) : Z :=
  match e with
  | Game.MOUSEMOTION rel_x _ => rel_x
  | _ => 0%Z
  end.

(** The grid line, in tiles, that a ray of direction component [d] meets next
    when it leaves a cell, and the one through which it enters a cell. *)
Definition next_line (d : R) (cell : Z) : R :=
  if Rlt_dec d 0 then IZR cell else IZR cell + 1.
Definition entry_line (d : R) (cell : Z) : R :=
  if Rlt_dec d 0 then IZR cell + 1 else IZR cell.

(** One axis of the traversal seen from the player at [pos] tiles: for a
    direction component [d] that is not zero the side distance is the length
    of the ray up to the next grid line of the cell; for zero it is infinite
    and the cell is the one of the player. *)
Definition axis_geom (d pos : R) (delta side : float) (cell : Z) : Prop :=
  (d = 0 /\ delta = PInf /\ side = PInf /\ IZR cell <= pos <= IZR cell + 1)
  \/ (d <> 0 /\ delta = Fin (/ Rabs d)
      /\ exists u, side = Fin u /\ 0 <= u /\ pos + u * d = next_line d cell).

(** The loop variables of a ray of direction [(c, sn)] from the point
    [(px, py)], in tiles: both axes, and the ray enters the cell on each axis
    before it leaves it on the other. *)
Definition dda_geom (c sn px py : R) (r : Raycaster.ray) (s : Raycaster.dda)
  : Prop :=
  Raycaster.step_x r = (if Rlt_dec c 0 then -1 else 1)%Z
  /\ Raycaster.step_y r = (if Rlt_dec sn 0 then -1 else 1)%Z
  /\ axis_geom c px (Raycaster.delta_dist_x r) (Raycaster.side_dist_x s)
               (Raycaster.map_col s)
  /\ axis_geom sn py (Raycaster.delta_dist_y r) (Raycaster.side_dist_y s)
               (Raycaster.map_row s)
  /\ forall u v, Raycaster.side_dist_x s = Fin u ->
                 Raycaster.side_dist_y s = Fin v ->
                 u - / Rabs c <= v /\ v - / Rabs sn <= u.

(** After a pass: the side distance less one step is the length [t] of the
    ray, in tiles, up to the point where it entered the cell, a point of the
    face of the cell named by [hit_side]. *)
Definition hit_face (c sn px py : R) (r : Raycaster.ray) (s : Raycaster.dda)
  : Prop :=
  exists t, 0 <= t
    /\ ((Raycaster.hit_side s = 0%Z
         /\ fsub (Raycaster.side_dist_x s) (Raycaster.delta_dist_x r) = Fin t
         /\ px + t * c = entry_line c (Raycaster.map_col s)
         /\ IZR (Raycaster.map_row s) <= py + t * sn
            <= IZR (Raycaster.map_row s) + 1)
        \/ (Raycaster.hit_side s = 1%Z
            /\ fsub (Raycaster.side_dist_y s) (Raycaster.delta_dist_y r) = Fin t
            /\ py + t * sn = entry_line sn (Raycaster.map_row s)
            /\ IZR (Raycaster.map_col s) <= px + t * c
               <= IZR (Raycaster.map_col s) + 1)).

(** A direction component whose reciprocal is a finite float: zero, for
    which [_cast_ray] takes [inf] without dividing, or not so small that
    [1 / d] overflows. *)
Definition finite_reciprocal (d : R) : Prop :=
  d = 0 \/ / 2 ^ 1000 <= Rabs d.

(** * Properties *)

(** ** Numbers *)

Lemma Ztrunc_IZR (z : Z) : Ztrunc (IZR z) = z.
Proof.
  unfold Ztrunc. destruct (Rle_dec 0 (IZR z)).
  - apply ZfloorZ.
  - unfold Zceil. rewrite <- opp_IZR, ZfloorZ. lia.
Qed.

Lemma int_of_floordiv (a b : R) : int_of (py_floordiv a b) = Zfloor (a / b).
Proof. apply Ztrunc_IZR. Qed.

Lemma Ztrunc_nonneg (r : R) : 0 <= r -> Ztrunc r = Zfloor r.
Proof. intro H. unfold Ztrunc. destruct (Rle_dec 0 r); [reflexivity | contradiction]. Qed.

Lemma Ztrunc_eq (z : Z) (r : R) : 0 <= r -> IZR z <= r < IZR z + 1 -> Ztrunc r = z.
Proof. intros H0 H. rewrite Ztrunc_nonneg by assumption. now apply Zfloor_eq. Qed.

(** The tile index of a world coordinate. *)
Lemma tile_index_eq (z : Z) (w : R) :
  IZR z * 64 <= w < IZR z * 64 + 64 ->
  int_of (py_floordiv w (IZR TILE_SIZE)) = z.
Proof.
  intro H. rewrite int_of_floordiv. apply Zfloor_eq. unfold TILE_SIZE. lra.
Qed.

(** Two coordinates at most a tile apart lie in the same tile or in
    neighbouring ones, and a coordinate between them lies in one of the two. *)
Lemma tile_index_between (a w b : R) :
  a <= w <= b -> b - a < 64 ->
  Zfloor (w / IZR TILE_SIZE) = Zfloor (a / IZR TILE_SIZE)
  \/ Zfloor (w / IZR TILE_SIZE) = Zfloor (b / IZR TILE_SIZE).
Proof.
  intros [Ha Hb] Hd. unfold TILE_SIZE.
  pose proof (Zfloor_bound (a / 64)) as Ba.
  pose proof (Zfloor_bound (b / 64)) as Bb.
  pose proof (Zfloor_bound (w / 64)) as Bw.
  assert (Hab : (Zfloor (a / 64) <= Zfloor (w / 64))%Z) by (apply Zfloor_le; lra).
  assert (Hwb : (Zfloor (w / 64) <= Zfloor (b / 64))%Z) by (apply Zfloor_le; lra).
  assert (Hlt : (Zfloor (b / 64) < Zfloor (a / 64) + 2)%Z).
  { apply lt_IZR. rewrite plus_IZR. lra. }
  lia.
Qed.

(** ** Map *)

Lemma py_index_nth {A : Type} (l : list A) (i : Z) (v : A) :
  (0 <= i)%Z -> nth_error l (Z.to_nat i) = Some v -> py_index l i = Ret v.
Proof.
  intros Hi Hn. unfold py_index.
  assert (Hlen : (Z.to_nat i < length l)%nat).
  { apply nth_error_Some. congruence. }
  destruct (Z.ltb_spec i 0); [lia |].
  destruct (Z.leb_spec 0 i); [| lia].
  destruct (Z.ltb_spec i (Z.of_nat (length l))); [| lia].
  simpl. now rewrite Hn.
Qed.

Lemma rectangular_stored (m : Map.t) (col row : Z) :
  Map.rectangular m = true ->
  (0 <= row < Map.num_rows m)%Z -> (0 <= col < Map.num_cols m)%Z ->
  exists r t, nth_error (Map.grid m) (Z.to_nat row) = Some r
              /\ nth_error r (Z.to_nat col) = Some t.
Proof.
  unfold Map.rectangular. intros H Hr Hc.
  apply andb_prop in H. destruct H as [Hn Hall].
  apply Z.eqb_eq in Hn.
  destruct (nth_error (Map.grid m) (Z.to_nat row)) as [r |] eqn:Er.
  - rewrite forallb_forall in Hall.
    pose proof (Hall r (nth_error_In _ _ Er)) as Hl. apply Z.eqb_eq in Hl.
    destruct (nth_error r (Z.to_nat col)) as [t |] eqn:Et.
    + now exists r, t.
    + apply nth_error_None in Et. lia.
  - apply nth_error_None in Er. lia.
Qed.

Lemma get_tile_in (m : Map.t) (col row : Z) :
  Map.rectangular m = true ->
  (0 <= row < Map.num_rows m)%Z -> (0 <= col < Map.num_cols m)%Z ->
  exists t, Map.stored m col row = Some t /\ Map.get_tile m col row = Ret t.
Proof.
  intros H Hr Hc.
  destruct (rectangular_stored m col row H Hr Hc) as (r & t & Er & Et).
  exists t. unfold Map.stored, Map.get_tile. rewrite Er. split; [exact Et |].
  destruct (Z.leb_spec 0 row); [| lia].
  destruct (Z.ltb_spec row (Map.num_rows m)); [| lia].
  destruct (Z.leb_spec 0 col); [| lia].
  destruct (Z.ltb_spec col (Map.num_cols m)); [| lia].
  simpl. rewrite (py_index_nth _ _ r) by (lia || assumption). simpl.
  apply py_index_nth; [lia | assumption].
Qed.

Lemma get_tile_out (m : Map.t) (col row : Z) :
  ~ ((0 <= col < Map.num_cols m)%Z /\ (0 <= row < Map.num_rows m)%Z) ->
  Map.get_tile m col row = Ret Map.WALL.
Proof.
  intro H. unfold Map.get_tile.
  destruct (Z.leb_spec 0 row); destruct (Z.ltb_spec row (Map.num_rows m));
    destruct (Z.leb_spec 0 col); destruct (Z.ltb_spec col (Map.num_cols m));
    simpl; try reflexivity.
  exfalso. apply H. lia.
Qed.

(** On a rectangular map no query raises. *)
Lemma get_tile_total (m : Map.t) (col row : Z) :
  Map.rectangular m = true -> exists t, Map.get_tile m col row = Ret t.
Proof.
  intro H.
  destruct (Z_lt_le_dec row 0); [exists Map.WALL; apply get_tile_out; lia |].
  destruct (Z_lt_le_dec row (Map.num_rows m));
    [| exists Map.WALL; apply get_tile_out; lia].
  destruct (Z_lt_le_dec col 0); [exists Map.WALL; apply get_tile_out; lia |].
  destruct (Z_lt_le_dec col (Map.num_cols m));
    [| exists Map.WALL; apply get_tile_out; lia].
  destruct (get_tile_in m col row H) as (t & _ & E); try lia. now exists t.
Qed.

Lemma is_wall_total (m : Map.t) (wx wy : R) :
  Map.rectangular m = true -> exists b, Map.is_wall m wx wy = Ret b.
Proof.
  intro H. unfold Map.is_wall.
  destruct (get_tile_total m (int_of (py_floordiv wx (IZR TILE_SIZE)))
              (int_of (py_floordiv wy (IZR TILE_SIZE))) H) as [t E].
  rewrite E. simpl. eauto.
Qed.

Lemma game_map_init : Map.__init__ = Ret Map.game_map.
Proof. reflexivity. Qed.

(** C5. [get_tile(col, row)] on a rectangular map returns the tile stored at
    [(col, row)] when [0 <= col < num_cols] and [0 <= row < num_rows], and
    [WALL] for every other pair of integers. *)
Theorem get_tile_spec (m : Map.t) (col row : Z) :
  Map.rectangular m = true ->
  ((0 <= col < Map.num_cols m)%Z /\ (0 <= row < Map.num_rows m)%Z ->
   exists t, Map.stored m col row = Some t /\ Map.get_tile m col row = Ret t)
  /\ (~ ((0 <= col < Map.num_cols m)%Z /\ (0 <= row < Map.num_rows m)%Z) ->
      Map.get_tile m col row = Ret Map.WALL).
Proof.
  intro H. split.
  - intros [Hc Hr]. now apply get_tile_in.
  - apply get_tile_out.
Qed.

Lemma get_tile_spec_witness :
  (exists t, Map.stored Map.game_map 1 1 = Some t
             /\ Map.get_tile Map.game_map 1 1 = Ret t)
  /\ Map.get_tile Map.game_map (-1) 0 = Ret Map.WALL.
Proof.
  destruct (get_tile_spec Map.game_map 1 1 eq_refl) as [Hin _].
  destruct (get_tile_spec Map.game_map (-1) 0 eq_refl) as [_ Hout].
  split.
  - apply Hin. simpl. lia.
  - apply Hout. simpl. lia.
Defined.

Lemma is_wall_at (m : Map.t) (wx wy : R) (c r t : Z) :
  IZR c * 64 <= wx < IZR c * 64 + 64 ->
  IZR r * 64 <= wy < IZR r * 64 + 64 ->
  Map.get_tile m c r = Ret t ->
  Map.is_wall m wx wy = Ret (t =? Map.WALL)%Z.
Proof.
  intros Hc Hr Ht. unfold Map.is_wall.
  rewrite (tile_index_eq c wx Hc), (tile_index_eq r wy Hr), Ht. reflexivity.
Qed.

Lemma is_wall_same_tile (m : Map.t) (wx wy wx' wy' : R) :
  Zfloor (wx / IZR TILE_SIZE) = Zfloor (wx' / IZR TILE_SIZE) ->
  Zfloor (wy / IZR TILE_SIZE) = Zfloor (wy' / IZR TILE_SIZE) ->
  Map.is_wall m wx wy = Map.is_wall m wx' wy'.
Proof.
  intros Hx Hy. unfold Map.is_wall. rewrite !int_of_floordiv, Hx, Hy. reflexivity.
Qed.

(** A point is open when the two points at [MARGIN] on either side of it
    along one axis are. *)
Lemma is_wall_between_y (m : Map.t) (wx wy : R) :
  Map.is_wall m wx (wy - IZR Player.MARGIN) = Ret false ->
  Map.is_wall m wx (wy + IZR Player.MARGIN) = Ret false ->
  Map.is_wall m wx wy = Ret false.
Proof.
  intros H1 H2. unfold Player.MARGIN in *.
  destruct (tile_index_between (wy - 10) wy (wy + 10)) as [E | E]; try lra.
  - rewrite <- H1. now apply is_wall_same_tile.
  - rewrite <- H2. now apply is_wall_same_tile.
Qed.

Lemma is_wall_between_x (m : Map.t) (wx wy : R) :
  Map.is_wall m (wx - IZR Player.MARGIN) wy = Ret false ->
  Map.is_wall m (wx + IZR Player.MARGIN) wy = Ret false ->
  Map.is_wall m wx wy = Ret false.
Proof.
  intros H1 H2. unfold Player.MARGIN in *.
  destruct (tile_index_between (wx - 10) wx (wx + 10)) as [E | E]; try lra.
  - rewrite <- H1. now apply is_wall_same_tile.
  - rewrite <- H2. now apply is_wall_same_tile.
Qed.

(** ** Player *)

Lemma blocked_not_clear (m : Map.t) (wx wy : R) : blocked m wx wy -> ~ clear m wx wy.
Proof. unfold blocked, clear. congruence. Qed.

(** What [_try_move] does on a rectangular map, by the four probes. *)
Lemma try_move_run (m : Map.t) (p : Player.t) (dx dy : R) :
  Map.rectangular m = true ->
  let mg := IZR Player.MARGIN in
  exists b1 b2 b3 b4 : bool,
    let x1 := if negb b1 && negb b2 then Player.x p + dx else Player.x p in
    let y1 := if negb b3 && negb b4 then Player.y p + dy else Player.y p in
    Map.is_wall m (Player.x p + dx) (Player.y p - mg) = Ret b1
    /\ Map.is_wall m (Player.x p + dx) (Player.y p + mg) = Ret b2
    /\ Map.is_wall m (x1 - mg) (Player.y p + dy) = Ret b3
    /\ Map.is_wall m (x1 + mg) (Player.y p + dy) = Ret b4
    /\ Player._try_move p dx dy m = Ret (Player.mk x1 y1 (Player.angle p)).
Proof.
  intros Hm mg.
  destruct (is_wall_total m (Player.x p + dx) (Player.y p - mg) Hm) as [b1 E1].
  destruct (is_wall_total m (Player.x p + dx) (Player.y p + mg) Hm) as [b2 E2].
  exists b1, b2.
  set (x1 := if negb b1 && negb b2 then Player.x p + dx else Player.x p).
  destruct (is_wall_total m (x1 - mg) (Player.y p + dy) Hm) as [b3 E3].
  destruct (is_wall_total m (x1 + mg) (Player.y p + dy) Hm) as [b4 E4].
  exists b3, b4. cbv zeta. fold x1.
  repeat (split; [assumption |]).
  unfold Player._try_move. fold mg. rewrite E1. cbn [bind].
  destruct p as [px py pa]. cbn [Player.x Player.y Player.angle] in *.
  assert (Hy : forall xa : R,
             Map.is_wall m (xa - mg) (py + dy) = Ret b3 ->
             Map.is_wall m (xa + mg) (py + dy) = Ret b4 ->
             (w3 <- Map.is_wall m (xa - mg) (py + dy) ;;
              y_clear <- (if negb w3
                          then w4 <- Map.is_wall m (xa + mg) (py + dy) ;;
                               Ret (negb w4)
                          else Ret false) ;;
              Ret (if (y_clear : bool) then Player.mk xa (py + dy) pa
                   else Player.mk xa py pa))
             = Ret (Player.mk xa (if negb b3 && negb b4 then py + dy else py) pa)).
  { intros xa F3 F4. rewrite F3. cbn [bind].
    destruct b3; cbn [negb bind andb]; [reflexivity |].
    rewrite F4. cbn [bind]. destruct b4; reflexivity. }
  destruct b1; cbn [negb bind andb] in *.
  - subst x1. cbn [Player.x Player.y Player.angle]. now apply Hy.
  - rewrite E2. cbn [bind].
    destruct b2; subst x1; cbn [negb andb Player.x Player.y Player.angle] in *;
      now apply Hy.
Qed.

(** C6. On a rectangular map [_try_move] returns; it leaves [x] unchanged when
    a probe at [x + delta_x] lands in a wall tile and adds exactly [delta_x]
    when both probes are clear; then it does the same for [y], with probes at
    [MARGIN] on either side of the [x] it has just settled. *)
Theorem try_move_axes (m : Map.t) (p : Player.t) (dx dy : R) :
  Map.rectangular m = true ->
  let mg := IZR Player.MARGIN in
  exists p', Player._try_move p dx dy m = Ret p'
    /\ ((blocked m (Player.x p + dx) (Player.y p - mg)
         \/ blocked m (Player.x p + dx) (Player.y p + mg)) ->
        Player.x p' = Player.x p)
    /\ (clear m (Player.x p + dx) (Player.y p - mg)
        /\ clear m (Player.x p + dx) (Player.y p + mg) ->
        Player.x p' = Player.x p + dx)
    /\ ((blocked m (Player.x p' - mg) (Player.y p + dy)
         \/ blocked m (Player.x p' + mg) (Player.y p + dy)) ->
        Player.y p' = Player.y p)
    /\ (clear m (Player.x p' - mg) (Player.y p + dy)
        /\ clear m (Player.x p' + mg) (Player.y p + dy) ->
        Player.y p' = Player.y p + dy).
Proof.
  intros Hm mg.
  destruct (try_move_run m p dx dy Hm) as (b1 & b2 & b3 & b4 & H).
  cbv zeta in H. fold mg in H. destruct H as (E1 & E2 & E3 & E4 & E).
  eexists. split; [exact E |]. unfold blocked, clear.
  cbn [Player.x Player.y].
  repeat split.
  - intros [B | B]; [rewrite E1 in B | rewrite E2 in B];
      injection B as ->; [| destruct b1]; reflexivity.
  - intros [C1 C2]. rewrite E1 in C1. rewrite E2 in C2.
    injection C1 as ->. injection C2 as ->. reflexivity.
  - intros [B | B]; [rewrite E3 in B | rewrite E4 in B];
      injection B as ->; [| destruct b3]; reflexivity.
  - intros [C1 C2]. rewrite E3 in C1. rewrite E4 in C2.
    injection C1 as ->. injection C2 as ->. reflexivity.
Qed.

Lemma is_wall_eval (m : Map.t) (wx wy : R) (c r : Z) (b : bool) :
  IZR c * 64 <= wx < IZR c * 64 + 64 ->
  IZR r * 64 <= wy < IZR r * 64 + 64 ->
  (t <- Map.get_tile m c r ;; Ret (t =? Map.WALL)%Z) = Ret b ->
  Map.is_wall m wx wy = Ret b.
Proof.
  intros Hc Hr Ht. unfold Map.is_wall.
  now rewrite (tile_index_eq c wx Hc), (tile_index_eq r wy Hr).
Qed.

(** Decides a probe at a literal point, given its tile. *)
Ltac probe c r :=
  unfold clear, blocked; cbn [Player.x Player.y]; unfold Player.MARGIN;
  apply (is_wall_eval _ _ _ c r); [lra | lra | reflexivity].

Lemma try_move_axes_witness :
  exists p', Player._try_move (Player.mk 96 96 0) 1 0 Map.game_map = Ret p'
             /\ Player.x p' = 96 + 1 /\ Player.y p' = 96 + 0.
Proof.
  destruct (try_move_axes Map.game_map (Player.mk 96 96 0) 1 0 eq_refl)
    as (p' & E & _ & Hx & _ & Hy).
  exists p'. split; [exact E |].
  assert (Ex : Player.x p' = 96 + 1).
  { apply Hx. split; [probe 1%Z 1%Z | probe 1%Z 1%Z]. }
  split; [exact Ex |].
  apply Hy. rewrite Ex. split; [probe 1%Z 1%Z | probe 1%Z 1%Z].
Defined.

(** C9. On a rectangular map, a player whose position is not inside a wall
    tile is not inside a wall tile after [_try_move], whatever the
    displacement. *)
Theorem try_move_stays_open (m : Map.t) (p : Player.t) (dx dy : R) :
  Map.rectangular m = true ->
  clear m (Player.x p) (Player.y p) ->
  exists p', Player._try_move p dx dy m = Ret p'
             /\ clear m (Player.x p') (Player.y p').
Proof.
  intros Hm Hp.
  destruct (try_move_run m p dx dy Hm) as (b1 & b2 & b3 & b4 & H).
  cbv zeta in H. destruct H as (E1 & E2 & E3 & E4 & E).
  eexists. split; [exact E |]. unfold clear in *. cbn [Player.x Player.y].
  set (x1 := if negb b1 && negb b2 then Player.x p + dx else Player.x p) in *.
  assert (Hx1 : Map.is_wall m x1 (Player.y p) = Ret false).
  { subst x1. destruct b1; cbn [negb andb] in *; [exact Hp |].
    destruct b2; cbn [negb andb] in *; [exact Hp |].
    now apply is_wall_between_y. }
  destruct b3; cbn [negb andb]; [exact Hx1 |].
  destruct b4; cbn [negb andb]; [exact Hx1 |].
  now apply is_wall_between_x.
Qed.

Lemma try_move_stays_open_witness :
  exists p', Player._try_move (Player.mk 96 96 0) (-200) 0 Map.game_map = Ret p'
             /\ clear Map.game_map (Player.x p') (Player.y p').
Proof.
  apply (try_move_stays_open Map.game_map (Player.mk 96 96 0) (-200) 0 eq_refl).
  probe 1%Z 1%Z.
Defined.

(** C10. [_try_move] probes the destination only: on the map of the game, from
    the open point [(96, 160)] a displacement of [128] along x, two tiles, is
    committed although the segment travelled crosses the wall tile [(2, 2)]. *)
Theorem try_move_tunnels :
  IZR TILE_SIZE < Rabs 128
  /\ clear Map.game_map 96 160
  /\ exists p',
      Player._try_move (Player.mk 96 160 0) 128 0 Map.game_map = Ret p'
      /\ Player.x p' = 96 + 128 /\ Player.y p' = 160
      /\ exists s, 0 < s < 1 /\ blocked Map.game_map (96 + s * 128) 160.
Proof.
  split; [| split].
  - unfold TILE_SIZE. rewrite Rabs_pos_eq; lra.
  - probe 1%Z 2%Z.
  - destruct (try_move_run Map.game_map (Player.mk 96 160 0) 128 0 eq_refl)
      as (b1 & b2 & b3 & b4 & H).
    cbv zeta in H. cbn [Player.x Player.y Player.angle] in H.
    destruct H as (E1 & E2 & E3 & E4 & E).
    assert (F1 : Map.is_wall Map.game_map (96 + 128) (160 - IZR Player.MARGIN)
                 = Ret false) by probe 3%Z 2%Z.
    assert (F2 : Map.is_wall Map.game_map (96 + 128) (160 + IZR Player.MARGIN)
                 = Ret false) by probe 3%Z 2%Z.
    rewrite F1 in E1. rewrite F2 in E2.
    injection E1 as <-. injection E2 as <-. cbn [negb andb] in *.
    assert (F3 : Map.is_wall Map.game_map (96 + 128 - IZR Player.MARGIN) (160 + 0)
                 = Ret false) by probe 3%Z 2%Z.
    assert (F4 : Map.is_wall Map.game_map (96 + 128 + IZR Player.MARGIN) (160 + 0)
                 = Ret false) by probe 3%Z 2%Z.
    rewrite F3 in E3. rewrite F4 in E4.
    injection E3 as <-. injection E4 as <-. cbn [negb andb] in *.
    eexists. split; [exact E |]. cbn [Player.x Player.y].
    split; [reflexivity |]. split; [lra |].
    exists (1 / 2). split; [lra |]. probe 2%Z 2%Z.
Qed.

(** ** The DDA loop *)

Local Open Scope Z_scope.

(** One pass enters a neighbouring cell along one axis and counts itself. *)
Lemma dda_body_step (m : Map.t) (r : Raycaster.ray) (s s' : Raycaster.dda) :
  Raycaster.dda_body m r s = Ret s' ->
  Raycaster.depth s' = Raycaster.depth s + 1
  /\ ((Raycaster.map_col s' = Raycaster.map_col s + Raycaster.step_x r
       /\ Raycaster.map_row s' = Raycaster.map_row s
       /\ Raycaster.hit_side s' = 0)
      \/ (Raycaster.map_col s' = Raycaster.map_col s
          /\ Raycaster.map_row s' = Raycaster.map_row s + Raycaster.step_y r
          /\ Raycaster.hit_side s' = 1)).
Proof.
  unfold Raycaster.dda_body.
  destruct (flt (Raycaster.side_dist_x s) (Raycaster.side_dist_y s));
    cbn [Raycaster.map_col Raycaster.map_row Raycaster.hit_side
         Raycaster.depth Raycaster.wall_hit
         Raycaster.side_dist_x Raycaster.side_dist_y];
    match goal with |- context [Map.get_tile ?a ?b ?c] =>
      destruct (Map.get_tile a b c) end; cbn [bind]; try discriminate;
    intro H; injection H as <-; cbn; auto.
Qed.

Lemma py_index_fuel {A : Type} (l : list A) (i : Z) : py_index l i <> OutOfFuel.
Proof.
  unfold py_index.
  destruct ((0 <=? (if i <? 0 then i + Z.of_nat (length l) else i))
            && ((if i <? 0 then i + Z.of_nat (length l) else i)
                <? Z.of_nat (length l))); [| discriminate].
  destruct (nth_error l _); discriminate.
Qed.

Lemma get_tile_fuel (m : Map.t) (col row : Z) : Map.get_tile m col row <> OutOfFuel.
Proof.
  unfold Map.get_tile.
  destruct ((0 <=? row) && (row <? Map.num_rows m)
            && ((0 <=? col) && (col <? Map.num_cols m))); [| discriminate].
  destruct (py_index (Map.grid m) row) as [r | e |] eqn:E; cbn [bind].
  - apply py_index_fuel.
  - discriminate.
  - now apply py_index_fuel in E.
Qed.

Lemma dda_body_fuel (m : Map.t) (r : Raycaster.ray) (s : Raycaster.dda) :
  Raycaster.dda_body m r s <> OutOfFuel.
Proof.
  unfold Raycaster.dda_body.
  match goal with |- context [Map.get_tile ?a ?b ?c] =>
    pose proof (get_tile_fuel a b c) as F;
    destruct (Map.get_tile a b c) end; cbn [bind]; congruence.
Qed.

Lemma dda_steps_run (md : Z) (m : Map.t) (r : Raycaster.ray) (fuel : nat) :
  forall s : Raycaster.dda,
    md - Raycaster.depth s <= Z.of_nat fuel ->
    match Raycaster.dda_steps fuel md m r s with
    | Ret (s', n) =>
        Raycaster.dda_loop fuel md m r s = Ret s'
        /\ Raycaster.dda_test md s' = false
        /\ Raycaster.depth s' = Raycaster.depth s + Z.of_nat n
        /\ Z.of_nat n <= Z.max 0 (md - Raycaster.depth s)
        /\ exists i j : nat,
            (i + j = n)%nat
            /\ Raycaster.map_col s'
               = Raycaster.map_col s + Z.of_nat i * Raycaster.step_x r
            /\ Raycaster.map_row s'
               = Raycaster.map_row s + Z.of_nat j * Raycaster.step_y r
    | Raise e => Raycaster.dda_loop fuel md m r s = Raise e
    | OutOfFuel => False
    end.
Proof.
  assert (Stop : forall s, Raycaster.dda_test md s = false ->
            Ret s = Ret s
            /\ Raycaster.dda_test md s = false
            /\ Raycaster.depth s = Raycaster.depth s + Z.of_nat O
            /\ Z.of_nat O <= Z.max 0 (md - Raycaster.depth s)
            /\ exists i j : nat,
                (i + j = O)%nat
                /\ Raycaster.map_col s
                   = Raycaster.map_col s + Z.of_nat i * Raycaster.step_x r
                /\ Raycaster.map_row s
                   = Raycaster.map_row s + Z.of_nat j * Raycaster.step_y r).
  { intros s T. split; [reflexivity |]. split; [exact T |].
    split; [lia |]. split; [lia |]. exists O, O. lia. }
  induction fuel as [| fuel IH]; intros s Hf;
    cbn [Raycaster.dda_steps Raycaster.dda_loop];
    destruct (Raycaster.dda_test md s) eqn:T; try now apply Stop.
  - unfold Raycaster.dda_test in T. apply andb_prop in T. destruct T as [_ T].
    apply Z.ltb_lt in T. lia.
  - assert (Hd : Raycaster.depth s < md).
    { unfold Raycaster.dda_test in T. apply andb_prop in T.
      destruct T as [_ T]. now apply Z.ltb_lt in T. }
    pose proof (dda_body_fuel m r s) as NF.
    destruct (Raycaster.dda_body m r s) as [s1 | e |] eqn:B; cbn [bind];
      [| reflexivity | congruence].
    destruct (dda_body_step m r s s1 B) as [D1 Mv].
    assert (Hf1 : md - Raycaster.depth s1 <= Z.of_nat fuel) by lia.
    specialize (IH s1 Hf1).
    destruct (Raycaster.dda_steps fuel md m r s1) as [[s' n] | e |];
      cbn [bind]; [| exact IH | exact IH].
    destruct IH as (L & T' & D' & N & i & j & Hij & Hc & Hr).
    split; [exact L |]. split; [exact T' |]. split; [lia |]. split; [lia |].
    destruct Mv as [(Mc & Mr & _) | (Mc & Mr & _)].
    + exists (S i), j. lia.
    + exists i, (S j). lia.
Qed.

(** C3. The DDA loop of [_cast_ray] ends, whatever the ray, the player and the
    map: run with [max_depth] passes of fuel it is never out of fuel; it
    raises (an index error of a ragged map) or returns after [n] passes with
    [n <= max_depth], [depth = n], the [n] passes having each entered a
    neighbouring cell along one axis, and with a wall entered or the depth
    limit reached. *)
Theorem dda_loop_terminates (max_depth : Z) (ray_angle : R) (player : Player.t)
  (m : Map.t) :
  let r := fst (Raycaster.ray_setup ray_angle player) in
  let s0 := snd (Raycaster.ray_setup ray_angle player) in
  match Raycaster.dda_steps (Z.to_nat max_depth) max_depth m r s0 with
  | Ret (s, n) =>
      Raycaster.dda_loop (Z.to_nat max_depth) max_depth m r s0 = Ret s
      /\ Z.of_nat n <= Z.max 0 max_depth
      /\ Raycaster.depth s = Z.of_nat n
      /\ (Raycaster.wall_hit s = true \/ max_depth <= Raycaster.depth s)
      /\ Z.abs (Raycaster.map_col s - Raycaster.map_col s0)
         + Z.abs (Raycaster.map_row s - Raycaster.map_row s0) = Z.of_nat n
  | Raise e =>
      Raycaster.dda_loop (Z.to_nat max_depth) max_depth m r s0 = Raise e
  | OutOfFuel => False
  end.
Proof.
  intros r s0.
  assert (D0 : Raycaster.depth s0 = 0).
  { subst s0. unfold Raycaster.ray_setup.
    destruct (Rlt_dec (cos ray_angle) 0); destruct (Rlt_dec (sin ray_angle) 0);
      reflexivity. }
  assert (Sx : Raycaster.step_x r = -1 \/ Raycaster.step_x r = 1).
  { subst r. unfold Raycaster.ray_setup.
    destruct (Rlt_dec (cos ray_angle) 0); destruct (Rlt_dec (sin ray_angle) 0);
      cbn; auto. }
  assert (Sy : Raycaster.step_y r = -1 \/ Raycaster.step_y r = 1).
  { subst r. unfold Raycaster.ray_setup.
    destruct (Rlt_dec (cos ray_angle) 0); destruct (Rlt_dec (sin ray_angle) 0);
      cbn; auto. }
  pose proof (dda_steps_run max_depth m r (Z.to_nat max_depth) s0) as H.
  specialize (H ltac:(lia)).
  destruct (Raycaster.dda_steps (Z.to_nat max_depth) max_depth m r s0)
    as [[s n] | e |]; [| exact H | exact H].
  destruct H as (L & T & D & N & i & j & Hij & Hc & Hr).
  split; [exact L |]. split; [lia |]. split; [lia |]. split.
  - unfold Raycaster.dda_test in T. apply andb_false_iff in T.
    destruct T as [T | T].
    + left. now apply negb_false_iff in T.
    + right. now apply Z.ltb_ge in T.
  - rewrite Hc, Hr. destruct Sx as [-> | ->]; destruct Sy as [-> | ->]; lia.
Qed.

(** ** Distances along the ray *)

Local Open Scope R_scope.

Lemma flt_Fin (u v : R) : flt (Fin u) (Fin v) = true <-> u < v.
Proof. cbn. destruct (Rlt_dec u v); split; intros; (assumption || discriminate || reflexivity || contradiction). Qed.

(** The x axis is advanced only when its side distance is finite and the
    nearer one. *)
Lemma axis_x_chosen (a b : R) (dx sx dy sy : float) (kx ky : R) :
  0 <= ky ->
  axis a dx sx kx -> axis b dy sy ky -> flt sx sy = true ->
  0 < a /\ dx = Fin (/ a) /\ sx = Fin (kx / a) /\ (kx / a) * b <= ky.
Proof.
  intros Hky [(-> & -> & ->) | (Ha & -> & ->)] [(-> & -> & ->) | (Hb & -> & ->)] F;
    try discriminate.
  - repeat split; try assumption. lra.
  - apply flt_Fin in F. repeat split; try assumption.
    apply Rmult_lt_compat_r with (r := b) in F; [| assumption].
    replace (ky / b * b) with ky in F by (field; lra). lra.
Qed.

(** Otherwise the y axis is, and then its side distance is finite and not
    the farther one. *)
Lemma axis_y_chosen (a b : R) (dx sx dy sy : float) (kx ky : R) :
  0 <= kx -> 1 <= a + b ->
  axis a dx sx kx -> axis b dy sy ky -> flt sx sy = false ->
  0 < b /\ dy = Fin (/ b) /\ sy = Fin (ky / b) /\ (ky / b) * a <= kx.
Proof.
  intros Hkx Hab [(-> & -> & ->) | (Ha & -> & ->)]
         [(-> & -> & ->) | (Hb & -> & ->)] F; try discriminate; try lra.
  - repeat split; try assumption. lra.
  - repeat split; try assumption.
    assert (Hge : ky / b <= kx / a).
    { destruct (Rle_or_lt (ky / b) (kx / a)) as [H | H]; [exact H |].
      apply flt_Fin in H. congruence. }
    apply Rmult_le_compat_r with (r := a) in Hge; [| lra].
    replace (kx / a * a) with kx in Hge by (field; lra). lra.
Qed.

(** The length travelled to a crossing is at most the number of grid lines
    crossed, because the direction components add up to at least one. *)
Lemma crossing_bound (a b k k' p bound : R) :
  0 < a -> 0 <= b -> 1 <= a + b -> 0 <= k -> 0 <= k' ->
  p = k / a -> p * b <= k' -> k + k' <= bound -> 0 <= p <= bound.
Proof.
  intros Ha Hb Hab Hk Hk' -> Hpb Hs.
  assert (Hp : 0 <= k / a) by (apply Rle_mult_inv_pos; assumption).
  assert (Hpa : k / a * a = k) by (field; lra).
  split; [exact Hp |]. nra.
Qed.

Lemma dda_body_inv (a b : R) (m : Map.t) (r : Raycaster.ray)
  (s s' : Raycaster.dda) (n : Z) :
  0 <= a -> 0 <= b -> 1 <= a + b -> (0 <= n)%Z ->
  dda_inv a b r s n ->
  Raycaster.dda_body m r s = Ret s' ->
  dda_inv a b r s' (n + 1).
Proof.
  intros Ha Hb Hab Hn (kx & ky & Hkx & Hky & Hsum & Ax & Ay & Hd & _ & _) B.
  unfold Raycaster.dda_body in B.
  destruct (flt (Raycaster.side_dist_x s) (Raycaster.side_dist_y s)) eqn:F;
    cbn [Raycaster.map_col Raycaster.map_row Raycaster.hit_side
         Raycaster.depth Raycaster.wall_hit
         Raycaster.side_dist_x Raycaster.side_dist_y] in B;
    match type of B with context [Map.get_tile ?u ?v ?w] =>
      destruct (Map.get_tile u v w) end; cbn [bind] in B; try discriminate;
    injection B as <-; unfold dda_inv;
    cbn [Raycaster.map_col Raycaster.map_row Raycaster.hit_side
         Raycaster.depth Raycaster.wall_hit
         Raycaster.side_dist_x Raycaster.side_dist_y];
    rewrite plus_IZR.
  - destruct (axis_x_chosen a b _ _ _ _ kx ky Hky Ax Ay F) as (Ha' & Ed & Es & Hp).
    exists (kx + 1), ky. rewrite Ed, Es in *. cbn [fadd fsub fopp].
    split; [lra |]. split; [lra |]. split; [lra |]. split.
    { right. split; [assumption |]. split; [reflexivity |]. f_equal. field. lra. }
    split; [exact Ay |]. split; [lia |]. split; [now left |].
    intros _. exists (kx / a). split.
    + apply (crossing_bound a b kx ky); try assumption; try reflexivity; lra.
    + left. split; [reflexivity |]. f_equal. field. lra.
  - destruct (axis_y_chosen a b _ _ _ _ kx ky Hkx Hab Ax Ay F) as (Hb' & Ed & Es & Hp).
    exists kx, (ky + 1). rewrite Ed, Es in *. cbn [fadd fsub fopp].
    split; [lra |]. split; [lra |]. split; [lra |]. split; [exact Ax |]. split.
    { right. split; [assumption |]. split; [reflexivity |]. f_equal. field. lra. }
    split; [lia |]. split; [now right |].
    intros _. exists (ky / b). split.
    + apply (crossing_bound b a ky kx); try assumption; try reflexivity; lra.
    + right. split; [reflexivity |]. f_equal. field. lra.
Qed.

Lemma abs_cos_sin (t : R) : 1 <= Rabs (cos t) + Rabs (sin t).
Proof.
  pose proof (sin2_cos2 t) as H. unfold Rsqr in H.
  pose proof (Rabs_pos (cos t)) as Hc. pose proof (Rabs_pos (sin t)) as Hs.
  assert (Ec : Rabs (cos t) * Rabs (cos t) = cos t * cos t).
  { rewrite <- Rabs_mult. apply Rabs_pos_eq. nra. }
  assert (Es : Rabs (sin t) * Rabs (sin t) = sin t * sin t).
  { rewrite <- Rabs_mult. apply Rabs_pos_eq. nra. }
  nra.
Qed.

Lemma delta_dist_axis (c f : R) :
  0 <= f -> (c = 0 -> 0 < f) ->
  let delta := if Req_dec_T c 0 then PInf else Fin (Rabs (1 / c)) in
  axis (Rabs c) delta (fmul (Fin f) delta) f.
Proof.
  intros Hf Hpos delta. subst delta. destruct (Req_dec_T c 0) as [E | E].
  - left. split; [subst c; apply Rabs_R0 |]. split; [reflexivity |].
    cbn [fmul]. unfold inf_signed. destruct (Rlt_dec 0 f); [reflexivity |].
    specialize (Hpos E). contradiction.
  - right. assert (Hc : 0 < Rabs c) by now apply Rabs_pos_lt.
    assert (Ed : Rabs (1 / c) = / Rabs c).
    { unfold Rdiv. rewrite Rmult_1_l. now apply Rabs_inv. }
    split; [exact Hc |]. rewrite Ed. split; [reflexivity |]. reflexivity.
Qed.

Lemma ray_setup_inv (ray_angle : R) (player : Player.t) :
  let r := fst (Raycaster.ray_setup ray_angle player) in
  let s0 := snd (Raycaster.ray_setup ray_angle player) in
  dda_inv (Rabs (cos ray_angle)) (Rabs (sin ray_angle)) r s0 0
  /\ Raycaster.wall_hit s0 = false.
Proof.
  unfold Raycaster.ray_setup. rewrite !int_of_floordiv.
  pose proof (Zfloor_bound (Player.x player / IZR TILE_SIZE)) as Bx.
  pose proof (Zfloor_bound (Player.y player / IZR TILE_SIZE)) as By.
  set (cx := Zfloor (Player.x player / IZR TILE_SIZE)) in *.
  set (cy := Zfloor (Player.y player / IZR TILE_SIZE)) in *.
  destruct (Rlt_dec (cos ray_angle) 0) as [Cx | Cx];
    destruct (Rlt_dec (sin ray_angle) 0) as [Cy | Cy];
    cbn [fst snd]; (split; [| reflexivity]); unfold dda_inv;
    cbn [Raycaster.delta_dist_x Raycaster.delta_dist_y Raycaster.side_dist_x
         Raycaster.side_dist_y Raycaster.depth Raycaster.hit_side];
    match goal with
    | |- context [fmul (Fin ?fx) (if Req_dec_T (cos _) 0 then _ else _)] =>
        match goal with
        | |- context [fmul (Fin ?fy) (if Req_dec_T (sin _) 0 then _ else _)] =>
            exists fx, fy
        end
    end;
    (split; [lra |]); (split; [lra |]); (split; [lra |]);
    (split; [apply delta_dist_axis; lra |]);
    (split; [apply delta_dist_axis; lra |]);
    (split; [reflexivity |]); (split; [now left |]); intro H; lia.
Qed.

Lemma dda_loop_inv (a b : R) (md : Z) (m : Map.t) (r : Raycaster.ray)
  (fuel : nat) :
  0 <= a -> 0 <= b -> 1 <= a + b ->
  forall (s s' : Raycaster.dda) (n : Z),
    (0 <= n)%Z -> dda_inv a b r s n ->
    Raycaster.dda_loop fuel md m r s = Ret s' ->
    exists n', (n <= n')%Z /\ dda_inv a b r s' n'
               /\ Raycaster.dda_test md s' = false
               /\ (Raycaster.dda_test md s = true -> (n < n')%Z).
Proof.
  intros Ha Hb Hab. induction fuel as [| fuel IH]; intros s s' n Hn I L;
    cbn [Raycaster.dda_loop] in L;
    destruct (Raycaster.dda_test md s) eqn:T; try discriminate.
  - injection L as <-. exists n. split; [lia |]. split; [exact I |].
    split; [exact T | discriminate].
  - destruct (Raycaster.dda_body m r s) as [s1 | e |] eqn:B; cbn [bind] in L;
      try discriminate.
    pose proof (dda_body_inv a b m r s s1 n Ha Hb Hab Hn I B) as I1.
    destruct (IH s1 s' (n + 1)%Z ltac:(lia) I1 L) as (n' & Hn' & I' & T' & _).
    exists n'. split; [lia |]. split; [exact I' |]. split; [exact T' |].
    intros _. lia.
  - injection L as <-. exists n. split; [lia |]. split; [exact I |].
    split; [exact T | discriminate].
Qed.

Lemma dda_body_total (m : Map.t) (r : Raycaster.ray) (s : Raycaster.dda) :
  Map.rectangular m = true -> exists s', Raycaster.dda_body m r s = Ret s'.
Proof.
  intro Hm. unfold Raycaster.dda_body.
  match goal with |- context [Map.get_tile ?u ?v ?w] =>
    destruct (get_tile_total m v w Hm) as [t Et]; rewrite Et end.
  cbn [bind]. eauto.
Qed.

Lemma dda_loop_total (md : Z) (m : Map.t) (r : Raycaster.ray) (fuel : nat) :
  Map.rectangular m = true ->
  forall s : Raycaster.dda,
    (md - Raycaster.depth s <= Z.of_nat fuel)%Z ->
    exists s', Raycaster.dda_loop fuel md m r s = Ret s'.
Proof.
  intros Hm. induction fuel as [| fuel IH]; intros s Hf;
    cbn [Raycaster.dda_loop];
    destruct (Raycaster.dda_test md s) eqn:T; eauto;
    assert (Hd : (Raycaster.depth s < md)%Z)
      by (unfold Raycaster.dda_test in T; apply andb_prop in T;
          destruct T as [_ T]; now apply Z.ltb_lt in T); [lia |].
  destruct (dda_body_total m r s Hm) as [s1 B]. rewrite B. cbn [bind].
  destruct (dda_body_step m r s s1 B) as [D1 _].
  apply IH. lia.
Qed.

(** On a rectangular map and with a depth limit of at least one, the loop of
    a cast returns after between one and [max_depth] passes. *)
Lemma dda_loop_result (md : Z) (ray_angle : R) (player : Player.t) (m : Map.t) :
  Map.rectangular m = true -> (1 <= md)%Z ->
  let r := fst (Raycaster.ray_setup ray_angle player) in
  let s0 := snd (Raycaster.ray_setup ray_angle player) in
  exists s n,
    Raycaster.dda_loop (Z.to_nat md) md m r s0 = Ret s
    /\ (1 <= n <= md)%Z
    /\ dda_inv (Rabs (cos ray_angle)) (Rabs (sin ray_angle)) r s n.
Proof.
  intros Hm Hmd r s0.
  destruct (ray_setup_inv ray_angle player) as [I0 W0]. fold r s0 in I0, W0.
  assert (D0 : Raycaster.depth s0 = 0%Z).
  { destruct I0 as (kx & ky & _ & _ & _ & _ & _ & D & _). exact D. }
  destruct (dda_loop_total md m r (Z.to_nat md) Hm s0 ltac:(lia)) as [s L].
  destruct (dda_loop_inv _ _ md m r (Z.to_nat md)
              (Rabs_pos _) (Rabs_pos _) (abs_cos_sin ray_angle)
              s0 s 0%Z ltac:(lia) I0 L) as (n & Hn & I & T & Hlt).
  assert (T0 : Raycaster.dda_test md s0 = true).
  { unfold Raycaster.dda_test. rewrite W0, D0.
    destruct (Z.ltb_spec 0 md); [reflexivity | lia]. }
  specialize (Hlt T0).
  pose proof (dda_steps_run md m r (Z.to_nat md) s0 ltac:(lia)) as S.
  destruct (Raycaster.dda_steps (Z.to_nat md) md m r s0) as [[s' k] | e |];
    [| congruence | contradiction].
  destruct S as (L' & _ & D' & N & _).
  assert (s' = s) by congruence. subst s'.
  assert (Dn : Raycaster.depth s = n).
  { destruct I as (kx & ky & _ & _ & _ & _ & _ & D & _). exact D. }
  exists s, n. split; [exact L |]. split; [lia | exact I].
Qed.

Lemma py_max_Fin (u v : R) :
  exists q, py_max (Fin u) (Fin v) = Fin q /\ v <= q /\ u <= q /\ (q = u \/ q = v).
Proof.
  unfold py_max. cbn [flt]. destruct (Rlt_dec u v).
  - exists v. repeat split; lra.
  - exists u. repeat split; lra.
Qed.

(** After at least one pass the clamped distance is finite: at least the
    clamp and at most one tile more than the tiles stepped. *)
Lemma perp_dist_bounds (a b : R) (r : Raycaster.ray) (s : Raycaster.dda) (n : Z) :
  (1 <= n)%Z -> dda_inv a b r s n ->
  exists q, Raycaster.perp_dist r s = Fin q
            /\ 1 / 10000 <= q <= 64 * (IZR n + 1).
Proof.
  intros Hn (kx & ky & _ & _ & _ & _ & _ & _ & _ & P).
  destruct (P ltac:(lia)) as (p & Hp & [(Hs & E) | (Hs & E)]);
    unfold Raycaster.perp_dist; rewrite Hs, E; cbn [Z.eqb fmul]; unfold TILE_SIZE;
    destruct (py_max_Fin (p * 64) (1 / 10000)) as (q & -> & Hq1 & Hq2 & Hq3);
    exists q; (split; [reflexivity |]);
    assert (1 <= IZR n) by (now apply IZR_le);
    (split; [lra |]); destruct Hq3; lra.
Qed.

Lemma cast_distance_on (md : Z) (ray_angle player_angle : R)
  (player : Player.t) (m : Map.t) :
  Map.rectangular m = true -> (1 <= md)%Z ->
  exists q s,
    Raycaster.cast_distance true md ray_angle player_angle player m
    = Ret (Fin q, s)
    /\ Raycaster.perp_dist (fst (Raycaster.ray_setup ray_angle player)) s = Fin q
    /\ Raycaster.dda_loop (Z.to_nat md) md m
         (fst (Raycaster.ray_setup ray_angle player))
         (snd (Raycaster.ray_setup ray_angle player)) = Ret s
    /\ 1 / 10000 <= q <= 64 * (IZR md + 1)
    /\ (Raycaster.hit_side s = 0%Z \/ Raycaster.hit_side s = 1%Z).
Proof.
  intros Hm Hmd.
  destruct (dda_loop_result md ray_angle player m Hm Hmd) as (s & n & L & Hn & I).
  destruct (perp_dist_bounds _ _ _ s n ltac:(lia) I) as (q & Eq & Hq).
  exists q, s. unfold Raycaster.cast_distance.
  destruct (Raycaster.ray_setup ray_angle player) as [r s0]. cbn [fst snd] in *.
  rewrite L. cbn [bind Raycaster.render_distance]. rewrite Eq.
  split; [reflexivity |]. split; [reflexivity |]. split; [reflexivity |].
  split.
  - assert (IZR n <= IZR md) by (apply IZR_le; lia). lra.
  - destruct I as (kx & ky & _ & _ & _ & _ & _ & _ & H & _). exact H.
Qed.

(** ** Height and shade *)

Lemma Ztrunc_le (u v : R) : u <= v -> (Ztrunc u <= Ztrunc v)%Z.
Proof.
  intro H. unfold Ztrunc.
  destruct (Rle_dec 0 u) as [Hu | Hu]; destruct (Rle_dec 0 v) as [Hv | Hv].
  - now apply Zfloor_le.
  - lra.
  - apply Z.le_trans with 0%Z.
    + apply le_IZR. pose proof (Zceil_bound u). 
      assert (IZR (Zceil u) - 1 < 0) by lra.
      assert (L : (Zceil u - 1 < 0)%Z) by (apply lt_IZR; rewrite minus_IZR; lra).
      apply IZR_le. lia.
    + apply Zfloor_lub. exact Hv.
  - now apply Zceil_le.
Qed.

Lemma wall_height_fin (self : Raycaster.t) (d : R) :
  d <> 0 ->
  Raycaster.wall_height_of self (Fin d)
  = Ret (Ztrunc (64 / d * IZR (Raycaster.screen_height self))).
Proof.
  intro Hd. unfold Raycaster.wall_height_of, TILE_SIZE. cbn [fdiv].
  destruct (Req_dec_T d 0); [contradiction | reflexivity].
Qed.

Lemma shade_fin (d : R) :
  Raycaster.shade_of (Fin d)
  = Ret (Z.max 40 (Z.min 255 (255 - Ztrunc (d / 64 * 18)))).
Proof.
  unfold Raycaster.shade_of, TILE_SIZE. cbn [fdiv].
  destruct (Req_dec_T 64 0); [lra | reflexivity].
Qed.

(** C8 as the code has it. For corrected distances [0 < d1 < d2] the wall
    height derived from [d2] is not larger than the one derived from [d1]
    (the truncation to whole pixels can make them equal), and the shade
    derived from [d2] is not larger than the one derived from [d1]. *)
Theorem height_shade_monotone (self : Raycaster.t) (d1 d2 : R) :
  (0 <= Raycaster.screen_height self)%Z -> 0 < d1 -> d1 < d2 ->
  exists h1 h2 s1 s2,
    Raycaster.wall_height_of self (Fin d1) = Ret h1
    /\ Raycaster.wall_height_of self (Fin d2) = Ret h2
    /\ Raycaster.shade_of (Fin d1) = Ret s1
    /\ Raycaster.shade_of (Fin d2) = Ret s2
    /\ (h2 <= h1)%Z /\ (s2 <= s1)%Z.
Proof.
  intros Hh H1 H12.
  rewrite !wall_height_fin by lra. rewrite !shade_fin.
  do 4 eexists. repeat (split; [reflexivity |]).
  assert (HH : 0 <= IZR (Raycaster.screen_height self)) by now apply IZR_le.
  assert (Hinv : / d2 <= / d1) by (apply Rinv_le_contravar; lra).
  split.
  - apply Ztrunc_le. unfold Rdiv. 
    apply Rmult_le_compat_r; [exact HH |].
    apply Rmult_le_compat_l; [lra | exact Hinv].
  - assert (T : (Ztrunc (d1 / 64 * 18) <= Ztrunc (d2 / 64 * 18))%Z)
      by (apply Ztrunc_le; lra).
    lia.
Qed.

Lemma height_shade_monotone_witness :
  exists h1 h2 s1 s2,
    Raycaster.wall_height_of game_raycaster (Fin 64) = Ret h1
    /\ Raycaster.wall_height_of game_raycaster (Fin 128) = Ret h2
    /\ Raycaster.shade_of (Fin 64) = Ret s1
    /\ Raycaster.shade_of (Fin 128) = Ret s2
    /\ (h2 <= h1)%Z /\ (s2 <= s1)%Z.
Proof.
  apply (height_shade_monotone game_raycaster 64 128).
  - unfold game_raycaster, SCREEN_HEIGHT. cbn. lia.
  - lra.
  - lra.
Defined.

(** C8 as stated fails: the distances [100 < 100.1] give the same wall
    height, 460 pixels on a screen of height 720. *)
Lemma height_not_strict :
  100 < 1001 / 10
  /\ Raycaster.wall_height_of game_raycaster (Fin 100) = Ret 460%Z
  /\ Raycaster.wall_height_of game_raycaster (Fin (1001 / 10)) = Ret 460%Z
  /\ ~ (460 < 460)%Z.
Proof.
  split; [lra |]. rewrite !wall_height_fin by lra.
  cbn [game_raycaster Raycaster.__init__ Raycaster.screen_height].
  unfold SCREEN_HEIGHT.
  split; [| split]; [| | lia]; f_equal; apply Ztrunc_eq; lra.
Qed.

(** ** Rays along an axis *)

Lemma dda_loop_stop (fuel : nat) (md : Z) (m : Map.t) (r : Raycaster.ray)
  (s : Raycaster.dda) :
  Raycaster.wall_hit s = true -> Raycaster.dda_loop fuel md m r s = Ret s.
Proof.
  intro H. destruct fuel; cbn [Raycaster.dda_loop]; unfold Raycaster.dda_test;
    rewrite H; reflexivity.
Qed.

Lemma dda_eq_x (v v' : R) (sy : float) (c c' row hs : Z) (w : bool) (d d' : Z) :
  v = v' -> c = c' -> d = d' ->
  Ret (Raycaster.mk_dda (Fin v) sy c row hs w d)
  = Ret (Raycaster.mk_dda (Fin v') sy c' row hs w d').
Proof. now intros -> -> ->. Qed.

Lemma dda_eq_y (v v' : R) (sx : float) (col r r' hs : Z) (w : bool) (d d' : Z) :
  v = v' -> r = r' -> d = d' ->
  Ret (Raycaster.mk_dda sx (Fin v) col r hs w d)
  = Ret (Raycaster.mk_dda sx (Fin v') col r' hs w d').
Proof. now intros -> -> ->. Qed.

(** A ray that never crosses a horizontal grid line walks along its row
    until the first wall tile. *)
Lemma dda_run_x (md : Z) (m : Map.t) (r : Raycaster.ray) (dl : R) (row : Z)
  (k : nat) :
  Raycaster.delta_dist_x r = Fin dl ->
  forall (fuel : nat) (v : R) (col hs d0 : Z),
    (forall i : nat, (1 <= i < k)%nat ->
       exists t, Map.get_tile m (col + Z.of_nat i * Raycaster.step_x r) row = Ret t
                 /\ (t =? Map.WALL)%Z = false) ->
    Map.get_tile m (col + Z.of_nat k * Raycaster.step_x r) row = Ret Map.WALL ->
    (1 <= k)%nat -> (d0 + Z.of_nat k <= md)%Z -> (k <= fuel)%nat ->
    Raycaster.dda_loop fuel md m r
      (Raycaster.mk_dda (Fin v) PInf col row hs false d0)
    = Ret (Raycaster.mk_dda (Fin (v + IZR (Z.of_nat k) * dl)) PInf
             (col + Z.of_nat k * Raycaster.step_x r) row 0 true
             (d0 + Z.of_nat k)).
Proof.
  intro Hd. induction k as [| k IH]; intros fuel v col hs d0 Hopen Hwall Hk Hmd Hf;
    [lia |].
  destruct fuel as [| fuel]; [lia |].
  cbn [Raycaster.dda_loop]. unfold Raycaster.dda_test at 1.
  cbn [Raycaster.wall_hit Raycaster.depth negb andb].
  destruct (Z.ltb_spec d0 md); [| lia].
  unfold Raycaster.dda_body.
  cbn [Raycaster.side_dist_x Raycaster.side_dist_y flt Raycaster.map_col
       Raycaster.map_row Raycaster.hit_side Raycaster.wall_hit Raycaster.depth].
  rewrite Hd. cbn [fadd].
  destruct k as [| k].
  - replace (col + Raycaster.step_x r)%Z
      with (col + Z.of_nat 1 * Raycaster.step_x r)%Z by lia.
    rewrite Hwall. cbn [bind Z.eqb Map.WALL Pos.eqb].
    rewrite dda_loop_stop by reflexivity.
    apply dda_eq_x; [cbn; ring | reflexivity | lia].
  - destruct (Hopen 1%nat ltac:(lia)) as (t & Et & Ht).
    replace (col + Z.of_nat 1 * Raycaster.step_x r)%Z
      with (col + Raycaster.step_x r)%Z in Et by lia.
    rewrite Et. cbn [bind]. rewrite Ht.
    rewrite (IH fuel); try lia.
    + apply dda_eq_x; [| lia | lia].
      rewrite (Nat2Z.inj_succ (S k)), succ_IZR. ring.
    + intros i Hi. destruct (Hopen (S i) ltac:(lia)) as (t' & Et' & Ht').
      exists t'. split; [| exact Ht'].
      rewrite <- Et'. f_equal. lia.
    + rewrite <- Hwall. f_equal. lia.
Qed.

(** A ray that never crosses a vertical grid line walks along its column. *)
Lemma dda_run_y (md : Z) (m : Map.t) (r : Raycaster.ray) (dl : R) (col : Z)
  (k : nat) :
  Raycaster.delta_dist_y r = Fin dl ->
  forall (fuel : nat) (v : R) (row hs d0 : Z),
    (forall i : nat, (1 <= i < k)%nat ->
       exists t, Map.get_tile m col (row + Z.of_nat i * Raycaster.step_y r) = Ret t
                 /\ (t =? Map.WALL)%Z = false) ->
    Map.get_tile m col (row + Z.of_nat k * Raycaster.step_y r) = Ret Map.WALL ->
    (1 <= k)%nat -> (d0 + Z.of_nat k <= md)%Z -> (k <= fuel)%nat ->
    Raycaster.dda_loop fuel md m r
      (Raycaster.mk_dda PInf (Fin v) col row hs false d0)
    = Ret (Raycaster.mk_dda PInf (Fin (v + IZR (Z.of_nat k) * dl))
             col (row + Z.of_nat k * Raycaster.step_y r) 1 true
             (d0 + Z.of_nat k)).
Proof.
  intro Hd. induction k as [| k IH]; intros fuel v row hs d0 Hopen Hwall Hk Hmd Hf;
    [lia |].
  destruct fuel as [| fuel]; [lia |].
  cbn [Raycaster.dda_loop]. unfold Raycaster.dda_test at 1.
  cbn [Raycaster.wall_hit Raycaster.depth negb andb].
  destruct (Z.ltb_spec d0 md); [| lia].
  unfold Raycaster.dda_body.
  cbn [Raycaster.side_dist_x Raycaster.side_dist_y flt Raycaster.map_col
       Raycaster.map_row Raycaster.hit_side Raycaster.wall_hit Raycaster.depth].
  rewrite Hd. cbn [fadd].
  destruct k as [| k].
  - replace (row + Raycaster.step_y r)%Z
      with (row + Z.of_nat 1 * Raycaster.step_y r)%Z by lia.
    rewrite Hwall. cbn [bind Z.eqb Map.WALL Pos.eqb].
    rewrite dda_loop_stop by reflexivity.
    apply dda_eq_y; [cbn; ring | reflexivity | lia].
  - destruct (Hopen 1%nat ltac:(lia)) as (t & Et & Ht).
    replace (row + Z.of_nat 1 * Raycaster.step_y r)%Z
      with (row + Raycaster.step_y r)%Z in Et by lia.
    rewrite Et. cbn [bind]. rewrite Ht.
    rewrite (IH fuel); try lia.
    + apply dda_eq_y; [| lia | lia].
      rewrite (Nat2Z.inj_succ (S k)), succ_IZR. ring.
    + intros i Hi. destruct (Hopen (S i) ltac:(lia)) as (t' & Et' & Ht').
      exists t'. split; [| exact Ht'].
      rewrite <- Et'. f_equal. lia.
    + rewrite <- Hwall. f_equal. lia.
Qed.

Lemma Rabs_inv_unit (step : Z) :
  (step = 1 \/ step = -1)%Z -> Rabs (1 / IZR step) = 1.
Proof.
  intros [-> | ->].
  - replace (1 / 1) with 1 by field. apply Rabs_R1.
  - replace (1 / -1) with (- (1)) by field. rewrite Rabs_Ropp. apply Rabs_R1.
Qed.

Lemma inf_signed_pos (f : R) : 0 < f -> inf_signed f true = PInf.
Proof. intro H. unfold inf_signed. destruct (Rlt_dec 0 f); [reflexivity | contradiction]. Qed.

(** The loop variables of a ray along the x axis. *)
Lemma ray_setup_x (ray_angle : R) (player : Player.t) (step c r : Z) :
  (step = 1 \/ step = -1)%Z ->
  cos ray_angle = IZR step -> sin ray_angle = 0 ->
  Player.x player = IZR c * 64 + 32 -> Player.y player = IZR r * 64 + 32 ->
  Raycaster.ray_setup ray_angle player
  = (Raycaster.mk_ray (Fin 1) PInf step 1,
     Raycaster.mk_dda (Fin (1 / 2)) PInf c r 0 false 0).
Proof.
  intros Hs Hc Hsin Hx Hy. unfold Raycaster.ray_setup.
  rewrite Hc, Hsin, Hx, Hy.
  rewrite (tile_index_eq c) by lra. rewrite (tile_index_eq r) by lra.
  destruct (Req_dec_T (IZR step) 0) as [E | _].
  { destruct Hs as [-> | ->]; lra. }
  destruct (Req_dec_T 0 0) as [_ | E]; [| lra].
  destruct (Rlt_dec 0 0) as [E | _]; [lra |].
  rewrite (Rabs_inv_unit step Hs). unfold TILE_SIZE. cbn [fmul].
  rewrite inf_signed_pos by lra.
  destruct Hs as [-> | ->].
  - destruct (Rlt_dec 1 0) as [E | _]; [lra |].
    do 3 f_equal. field.
  - destruct (Rlt_dec (-1) 0) as [_ | E]; [| lra].
    do 3 f_equal. field.
Qed.

(** The loop variables of a ray along the y axis. *)
Lemma ray_setup_y (ray_angle : R) (player : Player.t) (step c r : Z) :
  (step = 1 \/ step = -1)%Z ->
  cos ray_angle = 0 -> sin ray_angle = IZR step ->
  Player.x player = IZR c * 64 + 32 -> Player.y player = IZR r * 64 + 32 ->
  Raycaster.ray_setup ray_angle player
  = (Raycaster.mk_ray PInf (Fin 1) 1 step,
     Raycaster.mk_dda PInf (Fin (1 / 2)) c r 0 false 0).
Proof.
  intros Hs Hc Hsin Hx Hy. unfold Raycaster.ray_setup.
  rewrite Hc, Hsin, Hx, Hy.
  rewrite (tile_index_eq c) by lra. rewrite (tile_index_eq r) by lra.
  destruct (Req_dec_T (IZR step) 0) as [E | _].
  { destruct Hs as [-> | ->]; lra. }
  destruct (Req_dec_T 0 0) as [_ | E]; [| lra].
  destruct (Rlt_dec 0 0) as [E | _]; [lra |].
  rewrite (Rabs_inv_unit step Hs). unfold TILE_SIZE. cbn [fmul].
  rewrite inf_signed_pos by lra.
  destruct Hs as [-> | ->].
  - destruct (Rlt_dec 1 0) as [E | _]; [lra |].
    do 3 f_equal. field.
  - destruct (Rlt_dec (-1) 0) as [_ | E]; [| lra].
    do 3 f_equal. field.
Qed.

Lemma py_max_keep (u v : R) : v <= u -> py_max (Fin u) (Fin v) = Fin u.
Proof.
  intro H. unfold py_max. cbn [flt].
  destruct (Rlt_dec u v); [lra | reflexivity].
Qed.

(** A cast along the x axis from the centre of cell [(c, r)], the first wall
    tile being [k] tiles away: the distance is [k - 1/2] tiles. *)
Lemma cast_distance_x (md : Z) (m : Map.t) (ray_angle player_angle : R)
  (player : Player.t) (step c r : Z) (k : nat) :
  (step = 1 \/ step = -1)%Z ->
  cos ray_angle = IZR step -> sin ray_angle = 0 ->
  Player.x player = IZR c * 64 + 32 -> Player.y player = IZR r * 64 + 32 ->
  (forall i : nat, (1 <= i < k)%nat ->
     exists t, Map.get_tile m (c + Z.of_nat i * step) r = Ret t
               /\ (t =? Map.WALL)%Z = false) ->
  Map.get_tile m (c + Z.of_nat k * step) r = Ret Map.WALL ->
  (1 <= k)%nat -> (Z.of_nat k <= md)%Z ->
  Raycaster.cast_distance true md ray_angle player_angle player m
  = Ret (Fin ((IZR (Z.of_nat k) - 1 / 2) * IZR TILE_SIZE),
         Raycaster.mk_dda (Fin (1 / 2 + IZR (Z.of_nat k) * 1)) PInf
           (c + Z.of_nat k * step) r 0 true (0 + Z.of_nat k)).
Proof.
  intros Hs Hc Hsin Hx Hy Hopen Hwall Hk Hmd.
  unfold Raycaster.cast_distance.
  rewrite (ray_setup_x ray_angle player step c r Hs Hc Hsin Hx Hy).
  rewrite (dda_run_x md m (Raycaster.mk_ray (Fin 1) PInf step 1) 1 r k eq_refl
             (Z.to_nat md) (1 / 2) c 0 0);
    try assumption; try lia.
  cbn [bind Raycaster.render_distance]. do 2 f_equal.
  unfold Raycaster.perp_dist.
  cbn [Raycaster.hit_side Z.eqb Raycaster.side_dist_x Raycaster.delta_dist_x
       fsub fopp fadd fmul].
  assert (1 <= IZR (Z.of_nat k)) by (apply IZR_le; lia).
  unfold TILE_SIZE. rewrite py_max_keep by lra. f_equal. lra.
Qed.

(** The same along the y axis. *)
Lemma cast_distance_y (md : Z) (m : Map.t) (ray_angle player_angle : R)
  (player : Player.t) (step c r : Z) (k : nat) :
  (step = 1 \/ step = -1)%Z ->
  cos ray_angle = 0 -> sin ray_angle = IZR step ->
  Player.x player = IZR c * 64 + 32 -> Player.y player = IZR r * 64 + 32 ->
  (forall i : nat, (1 <= i < k)%nat ->
     exists t, Map.get_tile m c (r + Z.of_nat i * step) = Ret t
               /\ (t =? Map.WALL)%Z = false) ->
  Map.get_tile m c (r + Z.of_nat k * step) = Ret Map.WALL ->
  (1 <= k)%nat -> (Z.of_nat k <= md)%Z ->
  Raycaster.cast_distance true md ray_angle player_angle player m
  = Ret (Fin ((IZR (Z.of_nat k) - 1 / 2) * IZR TILE_SIZE),
         Raycaster.mk_dda PInf (Fin (1 / 2 + IZR (Z.of_nat k) * 1))
           c (r + Z.of_nat k * step) 1 true (0 + Z.of_nat k)).
Proof.
  intros Hs Hc Hsin Hx Hy Hopen Hwall Hk Hmd.
  unfold Raycaster.cast_distance.
  rewrite (ray_setup_y ray_angle player step c r Hs Hc Hsin Hx Hy).
  rewrite (dda_run_y md m (Raycaster.mk_ray PInf (Fin 1) 1 step) 1 c k eq_refl
             (Z.to_nat md) (1 / 2) r 0 0);
    try assumption; try lia.
  cbn [bind Raycaster.render_distance]. do 2 f_equal.
  unfold Raycaster.perp_dist.
  cbn [Raycaster.hit_side Z.eqb Raycaster.side_dist_y Raycaster.delta_dist_y
       fsub fopp fadd fmul].
  assert (1 <= IZR (Z.of_nat k)) by (apply IZR_le; lia).
  unfold TILE_SIZE. rewrite py_max_keep by lra. f_equal. lra.
Qed.

(** ** The axis scenario *)

Lemma in_py_range (n i : Z) : (0 <= i < n)%Z -> In i (py_range n).
Proof.
  intro H. unfold py_range. apply in_map_iff. exists (Z.to_nat i).
  split; [lia |]. apply in_seq. lia.
Qed.

Lemma ring_get_tile (m : Map.t) (c r : Z) :
  is_ring m = true ->
  (0 <= c < Map.num_cols m)%Z -> (0 <= r < Map.num_rows m)%Z ->
  Map.get_tile m c r = Ret (ring_tile m c r).
Proof.
  unfold is_ring. intros H Hc Hr. apply andb_prop in H. destruct H as [Hm Hall].
  destruct (get_tile_in m c r Hm Hr Hc) as (t & St & Gt).
  rewrite forallb_forall in Hall.
  pose proof (Hall r (in_py_range _ _ Hr)) as Hrow.
  rewrite forallb_forall in Hrow.
  pose proof (Hrow c (in_py_range _ _ Hc)) as Hcell.
  rewrite St in Hcell. apply Z.eqb_eq in Hcell. congruence.
Qed.

Lemma ring_tile_interior (m : Map.t) (c r : Z) :
  (1 <= c <= Map.num_cols m - 2)%Z -> (1 <= r <= Map.num_rows m - 2)%Z ->
  ring_tile m c r = Map.EMPTY.
Proof.
  intros Hc Hr. unfold ring_tile.
  destruct (Z.eqb_spec c 0); [lia |].
  destruct (Z.eqb_spec c (Map.num_cols m - 1)); [lia |].
  destruct (Z.eqb_spec r 0); [lia |].
  destruct (Z.eqb_spec r (Map.num_rows m - 1)); [lia |]. reflexivity.
Qed.

Lemma ring_tile_border (m : Map.t) (c r : Z) :
  (c = 0 \/ c = Map.num_cols m - 1 \/ r = 0 \/ r = Map.num_rows m - 1)%Z ->
  ring_tile m c r = Map.WALL.
Proof.
  intros H. unfold ring_tile.
  destruct (Z.eqb_spec c 0); [reflexivity |].
  destruct (Z.eqb_spec c (Map.num_cols m - 1)); [reflexivity |].
  destruct (Z.eqb_spec r 0); [reflexivity |].
  destruct (Z.eqb_spec r (Map.num_rows m - 1)); [reflexivity |]. lia.
Qed.

(** The tiles ahead of an interior cell of a ring map: empty up to the wall,
    which is [tiles_to_wall] tiles away. *)
Lemma ring_ahead (m : Map.t) (c r : Z) (h : heading) :
  is_ring m = true ->
  (1 <= c <= Map.num_cols m - 2)%Z -> (1 <= r <= Map.num_rows m - 2)%Z ->
  let k := tiles_to_wall m c r h in
  (1 <= k)%Z
  /\ Map.get_tile m (c + k * heading_dx h) (r + k * heading_dy h) = Ret Map.WALL
  /\ forall i, (1 <= i < k)%Z ->
       Map.get_tile m (c + i * heading_dx h) (r + i * heading_dy h)
       = Ret Map.EMPTY.
Proof.
  intros Hm Hc Hr k. subst k.
  destruct h; cbn [tiles_to_wall heading_dx heading_dy];
    (split; [lia |]); split;
    try (rewrite ring_get_tile by (assumption || lia);
         apply f_equal, ring_tile_border; lia);
    intros i Hi; rewrite ring_get_tile by (assumption || lia);
    apply f_equal, ring_tile_interior; lia.
Qed.

(** The axis casts again, with the tiles ahead counted in [Z]. *)
Lemma cast_distance_x_Z (md : Z) (m : Map.t) (ray_angle player_angle : R)
  (player : Player.t) (step c r k : Z) :
  (step = 1 \/ step = -1)%Z ->
  cos ray_angle = IZR step -> sin ray_angle = 0 ->
  Player.x player = IZR c * 64 + 32 -> Player.y player = IZR r * 64 + 32 ->
  (forall i, (1 <= i < k)%Z -> Map.get_tile m (c + i * step) r = Ret Map.EMPTY) ->
  Map.get_tile m (c + k * step) r = Ret Map.WALL ->
  (1 <= k <= md)%Z ->
  exists s,
    Raycaster.cast_distance true md ray_angle player_angle player m
    = Ret (Fin ((IZR k - 1 / 2) * IZR TILE_SIZE), s)
    /\ Raycaster.depth s = k /\ Raycaster.hit_side s = 0%Z.
Proof.
  intros Hs Hc Hsin Hx Hy Hopen Hwall Hk.
  assert (Ek : Z.of_nat (Z.to_nat k) = k) by lia.
  assert (E := cast_distance_x md m ray_angle player_angle player step c r
                 (Z.to_nat k) Hs Hc Hsin Hx Hy).
  rewrite Ek in E. eexists. split; [| split].
  - apply E; try lia; try assumption.
    intros i Hi. exists Map.EMPTY. split; [| reflexivity]. apply Hopen. lia.
  - cbn [Raycaster.depth]. lia.
  - reflexivity.
Qed.

Lemma cast_distance_y_Z (md : Z) (m : Map.t) (ray_angle player_angle : R)
  (player : Player.t) (step c r k : Z) :
  (step = 1 \/ step = -1)%Z ->
  cos ray_angle = 0 -> sin ray_angle = IZR step ->
  Player.x player = IZR c * 64 + 32 -> Player.y player = IZR r * 64 + 32 ->
  (forall i, (1 <= i < k)%Z -> Map.get_tile m c (r + i * step) = Ret Map.EMPTY) ->
  Map.get_tile m c (r + k * step) = Ret Map.WALL ->
  (1 <= k <= md)%Z ->
  exists s,
    Raycaster.cast_distance true md ray_angle player_angle player m
    = Ret (Fin ((IZR k - 1 / 2) * IZR TILE_SIZE), s)
    /\ Raycaster.depth s = k /\ Raycaster.hit_side s = 1%Z.
Proof.
  intros Hs Hc Hsin Hx Hy Hopen Hwall Hk.
  assert (Ek : Z.of_nat (Z.to_nat k) = k) by lia.
  assert (E := cast_distance_y md m ray_angle player_angle player step c r
                 (Z.to_nat k) Hs Hc Hsin Hx Hy).
  rewrite Ek in E. eexists. split; [| split].
  - apply E; try lia; try assumption.
    intros i Hi. exists Map.EMPTY. split; [| reflexivity]. apply Hopen. lia.
  - cbn [Raycaster.depth]. lia.
  - reflexivity.
Qed.

(** C1 as the code has it. In a map whose outer ring is [WALL] and whose
    interior is [EMPTY], a viewer at the centre of an interior cell who faces
    along an axis the wall [k] tiles away gets, with fisheye correction on and
    a depth limit above [k], the distance [(k - 1/2) * TILE_SIZE]: the centre
    of the cell is half a tile short of [k] tiles from the face of the wall. *)
Theorem axis_distance (m : Map.t) (c r : Z) (h : heading) (max_depth : Z) :
  is_ring m = true ->
  (1 <= c <= Map.num_cols m - 2)%Z -> (1 <= r <= Map.num_rows m - 2)%Z ->
  (tiles_to_wall m c r h < max_depth)%Z ->
  let k := tiles_to_wall m c r h in
  let player :=
    Player.mk (IZR c * IZR TILE_SIZE + IZR TILE_SIZE / 2)
              (IZR r * IZR TILE_SIZE + IZR TILE_SIZE / 2) (heading_angle h) in
  Map.get_tile m (c + k * heading_dx h) (r + k * heading_dy h) = Ret Map.WALL
  /\ (forall i, (1 <= i < k)%Z ->
        Map.get_tile m (c + i * heading_dx h) (r + i * heading_dy h)
        = Ret Map.EMPTY)
  /\ exists s,
      Raycaster.cast_distance true max_depth (heading_angle h) (heading_angle h)
                              player m
      = Ret (Fin ((IZR k - 1 / 2) * IZR TILE_SIZE), s)
      /\ Raycaster.depth s = k.
Proof.
  intros Hm Hc Hr Hmd k player.
  destruct (ring_ahead m c r h Hm Hc Hr) as (Hk & Hwall & Hopen).
  fold k in Hk, Hwall, Hopen.
  split; [exact Hwall |]. split; [exact Hopen |].
  assert (Px : Player.x player = IZR c * 64 + 32)
    by (subst player; cbn [Player.x]; unfold TILE_SIZE; lra).
  assert (Py : Player.y player = IZR r * 64 + 32)
    by (subst player; cbn [Player.y]; unfold TILE_SIZE; lra).
  assert (Hkm : (1 <= k <= max_depth)%Z) by lia.
  destruct h; cbn [heading_dx heading_dy heading_angle] in *.
  - destruct (cast_distance_x_Z max_depth m 0 0 player 1 c r k) as (s & E & D & _);
      try assumption; [now left | apply cos_0 | apply sin_0 | | | eauto].
    + intros i Hi. rewrite <- (Hopen i Hi). f_equal; lia.
    + rewrite <- Hwall. f_equal; lia.
  - destruct (cast_distance_y_Z max_depth m (PI / 2) (PI / 2) player 1 c r k)
      as (s & E & D & _);
      try assumption; [now left | apply cos_PI2 | apply sin_PI2 | | | eauto].
    + intros i Hi. rewrite <- (Hopen i Hi). f_equal; lia.
    + rewrite <- Hwall. f_equal; lia.
  - destruct (cast_distance_x_Z max_depth m PI PI player (-1) c r k)
      as (s & E & D & _);
      try assumption; [now right | apply cos_PI | apply sin_PI | | | eauto].
    + intros i Hi. rewrite <- (Hopen i Hi). f_equal; lia.
    + rewrite <- Hwall. f_equal; lia.
  - destruct (cast_distance_y_Z max_depth m (3 * (PI / 2)) (3 * (PI / 2)) player
                (-1) c r k) as (s & E & D & _);
      try assumption; [now right | apply cos_3PI2 | apply sin_3PI2 | | | eauto].
    + intros i Hi. rewrite <- (Hopen i Hi). f_equal; lia.
    + rewrite <- Hwall. f_equal; lia.
Qed.

Lemma axis_distance_witness :
  exists s,
    Raycaster.cast_distance true Raycaster.MAX_DEPTH 0 0
      (Player.mk (IZR 1 * IZR TILE_SIZE + IZR TILE_SIZE / 2)
                 (IZR 2 * IZR TILE_SIZE + IZR TILE_SIZE / 2) 0) ring5
    = Ret (Fin ((IZR 3 - 1 / 2) * IZR TILE_SIZE), s)
    /\ Raycaster.depth s = 3%Z.
Proof.
  destruct (axis_distance ring5 1 2 East Raycaster.MAX_DEPTH eq_refl)
    as (_ & _ & H);
    [cbn; lia | cbn; lia | unfold Raycaster.MAX_DEPTH; cbn; lia |].
  exact H.
Defined.

(** C1 as stated fails: in the 3 by 3 ring map the viewer at the centre of
    the interior cell faces a wall one tile away and gets the distance 32,
    half of [1 * TILE_SIZE]. *)
Lemma axis_distance_not_k :
  is_ring ring3 = true
  /\ tiles_to_wall ring3 1 1 East = 1%Z
  /\ exists s,
      Raycaster.cast_distance true Raycaster.MAX_DEPTH 0 0
                              (Player.mk 96 96 0) ring3
      = Ret (Fin 32, s)
      /\ Rabs (32 - 1 * IZR TILE_SIZE) = 32.
Proof.
  split; [reflexivity |]. split; [reflexivity |].
  destruct (cast_distance_x_Z Raycaster.MAX_DEPTH ring3 0 0 (Player.mk 96 96 0)
              1 1 1 1) as (s & E & _);
    [now left | apply cos_0 | apply sin_0
     | cbn [Player.x]; lra | cbn [Player.y]; lra
     | intros i Hi; lia | reflexivity | unfold Raycaster.MAX_DEPTH; lia |].
  exists s. split.
  - rewrite E. replace ((IZR 1 - 1 / 2) * IZR TILE_SIZE) with 32; [reflexivity |].
    unfold TILE_SIZE. lra.
  - unfold TILE_SIZE. replace (32 - 1 * 64) with (- (32)) by lra.
    rewrite Rabs_Ropp. apply Rabs_pos_eq. lra.
Qed.

(** ** The fisheye toggle *)

Lemma fdiv_one (a : float) : fdiv a (Fin 1) = Ret a.
Proof.
  unfold fdiv. destruct (Req_dec_T 1 0) as [E | _]; [lra |].
  destruct a; try reflexivity.
  - do 2 f_equal. field.
  - unfold inf_signed. destruct (Rlt_dec 0 1); [reflexivity | lra].
  - unfold inf_signed. destruct (Rlt_dec 0 1); [reflexivity | lra].
Qed.

Lemma cos_half_plane (d : R) : Rabs d < PI / 2 -> 0 < cos d <= 1.
Proof.
  intro H. apply Rabs_def2 in H. destruct H as [H1 H2].
  split; [apply cos_gt_0; lra | apply COS_bound].
Qed.

(** C2. The two fisheye modes of a cast agree on the ray at the centre of the
    field of view; on a ray within half a field of view (less than a half
    turn) of the viewer's heading, both return, and the uncorrected distance
    [perp / cos(ray_angle - player_angle)] is at least the corrected one. *)
Theorem fisheye_modes (max_depth : Z) (fov player_angle : R)
  (player : Player.t) (m : Map.t) :
  Map.rectangular m = true -> (1 <= max_depth)%Z -> 0 < fov < PI ->
  Raycaster.cast_distance false max_depth player_angle player_angle player m
  = Raycaster.cast_distance true max_depth player_angle player_angle player m
  /\ forall ray_angle : R,
      Rabs (ray_angle - player_angle) <= fov / 2 ->
      exists d_on d_off s,
        Raycaster.cast_distance true max_depth ray_angle player_angle player m
        = Ret (Fin d_on, s)
        /\ Raycaster.cast_distance false max_depth ray_angle player_angle
                                   player m
           = Ret (Fin d_off, s)
        /\ d_off = d_on / cos (ray_angle - player_angle)
        /\ d_on <= d_off.
Proof.
  intros Hm Hmd Hfov. split.
  - unfold Raycaster.cast_distance.
    destruct (Raycaster.ray_setup player_angle player) as [r s0].
    destruct (Raycaster.dda_loop (Z.to_nat max_depth) max_depth m r s0)
      as [s | e |]; cbn [bind]; try reflexivity.
    unfold Raycaster.render_distance.
    replace (player_angle - player_angle) with 0 by ring.
    rewrite cos_0, fdiv_one. reflexivity.
  - intros ray_angle Hd.
    destruct (cast_distance_on max_depth ray_angle player_angle player m Hm Hmd)
      as (q & s & E & Ep & L & Hq & _).
    destruct (cos_half_plane (ray_angle - player_angle) ltac:(lra)) as [C0 C1].
    exists q, (q / cos (ray_angle - player_angle)), s.
    split; [exact E |]. split; [| split; [reflexivity |]].
    + unfold Raycaster.cast_distance.
      destruct (Raycaster.ray_setup ray_angle player) as [r s0].
      cbn [fst snd] in *. rewrite L. cbn [bind].
      unfold Raycaster.render_distance. rewrite Ep. cbn [fdiv].
      destruct (Req_dec_T (cos (ray_angle - player_angle)) 0); [lra |].
      reflexivity.
    + apply Rmult_le_reg_r with (cos (ray_angle - player_angle)); [exact C0 |].
      replace (q / cos (ray_angle - player_angle) * cos (ray_angle - player_angle))
        with q by (field; lra).
      nra.
Qed.

Lemma fisheye_modes_witness :
  exists d_on d_off s,
    Raycaster.cast_distance true Raycaster.MAX_DEPTH (PI / 6) 0
                            (Player.mk 96 96 0) Map.game_map
    = Ret (Fin d_on, s)
    /\ Raycaster.cast_distance false Raycaster.MAX_DEPTH (PI / 6) 0
                               (Player.mk 96 96 0) Map.game_map
       = Ret (Fin d_off, s)
    /\ d_off = d_on / cos (PI / 6 - 0)
    /\ d_on <= d_off.
Proof.
  assert (HP := PI_RGT_0).
  destruct (fisheye_modes Raycaster.MAX_DEPTH FOV 0 (Player.mk 96 96 0)
              Map.game_map eq_refl) as [_ H].
  - unfold Raycaster.MAX_DEPTH. lia.
  - unfold FOV. lra.
  - apply H. unfold FOV. rewrite Rabs_pos_eq; lra.
Defined.

(** ** All columns *)

Lemma cast_ray_ok (self : Raycaster.t) (ray_angle player_angle : R)
  (player : Player.t) (m : Map.t) :
  Map.rectangular m = true ->
  exists (q : R) (side : Z),
    1 / 10000 <= q <= 64 * (IZR Raycaster.MAX_DEPTH + 1)
    /\ (side = 0 \/ side = 1)%Z
    /\ Raycaster._cast_ray self ray_angle player_angle player m
       = Ret (Ztrunc (64 / q * IZR (Raycaster.screen_height self)),
              shade_value q, side).
Proof.
  intro Hm.
  destruct (cast_distance_on Raycaster.MAX_DEPTH ray_angle player_angle player m
              Hm ltac:(unfold Raycaster.MAX_DEPTH; lia))
    as (q & s & E & _ & _ & Hq & Hs).
  exists q, (Raycaster.hit_side s). split; [exact Hq |]. split; [exact Hs |].
  unfold Raycaster._cast_ray, Raycaster._cast_ray_with, FISHEYE_CORRECTION.
  rewrite E. cbn [bind]. rewrite wall_height_fin by lra. cbn [bind].
  rewrite shade_fin. reflexivity.
Qed.

Lemma cast_column_ok (self : Raycaster.t) (player : Player.t) (m : Map.t)
  (start_angle angle_step : R) (col : Z) :
  Map.rectangular m = true ->
  exists e, column_entry self player m start_angle angle_step col e.
Proof.
  intro Hm.
  destruct (cast_ray_ok self (Raycaster.ray_angle_of start_angle angle_step col)
              (Player.angle player) player m Hm) as (q & side & Hq & Hs & E).
  eexists. exists q, side. split; [exact Hq |]. split; [exact Hs |].
  split; [exact E |]. split; [| reflexivity].
  unfold Raycaster.cast_column. rewrite E. cbn [bind].
  destruct (side =? 1)%Z; reflexivity.
Qed.

Lemma cast_columns_ok (self : Raycaster.t) (player : Player.t) (m : Map.t)
  (start_angle angle_step : R) (cols : list Z) :
  Map.rectangular m = true ->
  forall acc : list (Z * Z),
  exists l,
    Raycaster.cast_columns self player m start_angle angle_step cols acc
    = Ret (acc ++ l)
    /\ Forall2 (column_entry self player m start_angle angle_step) cols l.
Proof.
  intro Hm. induction cols as [| col cols IH]; intro acc.
  - exists []. rewrite app_nil_r. split; [reflexivity | constructor].
  - destruct (cast_column_ok self player m start_angle angle_step col Hm)
      as (e & He).
    destruct (IH (acc ++ [e])) as (l & El & Fl).
    exists (e :: l). cbn [Raycaster.cast_columns].
    destruct He as (q & side & Hq & Hs & Er & Ec & Ee).
    rewrite Ec. cbn [bind]. rewrite El, <- app_assoc. split; [reflexivity |].
    constructor; [| exact Fl].
    exists q, side. auto.
Qed.

Lemma cast_all_ok (w h : Z) (f : R) (player : Player.t) (m : Map.t) :
  Map.rectangular m = true -> (0 < w)%Z ->
  exists l,
    Raycaster.cast_all (Raycaster.__init__ w h f) player m = Ret l
    /\ Forall2 (column_entry (Raycaster.__init__ w h f) player m
                  (Player.angle player - f / 2) (f / IZR w))
               (py_range w) l.
Proof.
  intros Hm Hw. unfold Raycaster.cast_all.
  cbn [Raycaster.__init__ Raycaster.screen_width Raycaster.fov Raycaster.half_fov].
  destruct (Z.eqb_spec w 0); [lia |]. cbn [bind].
  destruct (cast_columns_ok
              {| Raycaster.screen_width := w; Raycaster.screen_height := h;
                 Raycaster.half_height := (h / 2)%Z; Raycaster.fov := f;
                 Raycaster.half_fov := f / 2 |}
              player m (Player.angle player - f / 2) (f / IZR w)
              (py_range w) Hm []) as (l & El & Fl).
  exists l. split; [exact El | exact Fl].
Qed.

Lemma py_range_length (n : Z) : length (py_range n) = Z.to_nat n.
Proof. unfold py_range. now rewrite length_map, length_seq. Qed.

Lemma py_range_nth (n i : Z) :
  (0 <= i < n)%Z -> nth_error (py_range n) (Z.to_nat i) = Some i.
Proof.
  intro H. unfold py_range. rewrite nth_error_map.
  rewrite nth_error_seq.
  destruct (Nat.ltb_spec (Z.to_nat i) (Z.to_nat n)); [| lia].
  cbn. f_equal. lia.
Qed.

Lemma Forall2_nth_error {A B : Type} (P : A -> B -> Prop) (l1 : list A)
  (l2 : list B) :
  Forall2 P l1 l2 ->
  forall (i : nat) (a : A), nth_error l1 i = Some a ->
    exists b, nth_error l2 i = Some b /\ P a b.
Proof.
  induction 1 as [| a0 b0 l1 l2 H0 H IH]; intros i a Hi.
  - destruct i; discriminate.
  - destruct i as [| i]; cbn in *.
    + injection Hi as <-. eauto.
    + eauto.
Qed.

(** The entry of a column is the one [cast_all] returns at its index. *)
Lemma cast_all_column (w h : Z) (f : R) (player : Player.t) (m : Map.t) :
  Map.rectangular m = true -> (0 < w)%Z ->
  exists l,
    Raycaster.cast_all (Raycaster.__init__ w h f) player m = Ret l
    /\ Z.of_nat (length l) = w
    /\ forall i, (0 <= i < w)%Z ->
         exists e, nth_error l (Z.to_nat i) = Some e
           /\ column_entry (Raycaster.__init__ w h f) player m
                (Player.angle player - f / 2) (f / IZR w) i e.
Proof.
  intros Hm Hw. destruct (cast_all_ok w h f player m Hm Hw) as (l & El & Fl).
  exists l. split; [exact El |]. split.
  - rewrite <- (Forall2_length Fl), py_range_length. lia.
  - intros i Hi. apply (Forall2_nth_error _ _ _ Fl). now apply py_range_nth.
Qed.

Lemma shade_value_range (q : R) : (40 <= shade_value q <= 255)%Z.
Proof. unfold shade_value. lia. Qed.

Lemma darkened_range (s : Z) :
  (40 <= s <= 255)%Z -> (30 <= Ztrunc (IZR s * (3 / 4)) <= 191)%Z.
Proof.
  intros [H1 H2].
  assert (L : 40 <= IZR s) by (now apply IZR_le).
  assert (U : IZR s <= 255) by (now apply IZR_le).
  split.
  - rewrite <- (Ztrunc_IZR 30). apply Ztrunc_le. lra.
  - replace 191%Z with (Ztrunc (765 / 4)) by (apply Ztrunc_eq; lra).
    apply Ztrunc_le. lra.
Qed.

Lemma height_positive (q : R) (h : Z) :
  0 < q <= 64 * (IZR Raycaster.MAX_DEPTH + 1) ->
  (Raycaster.MAX_DEPTH + 1 <= h)%Z ->
  (0 < Ztrunc (64 / q * IZR h))%Z.
Proof.
  unfold Raycaster.MAX_DEPTH. intros [Hq0 Hq] Hh.
  assert (HH : 21 <= IZR h) by (apply IZR_le; lia).
  assert (V : 1 <= 64 / q * IZR h).
  { apply Rmult_le_reg_r with q; [exact Hq0 |].
    replace (64 / q * IZR h * q) with (64 * IZR h) by (field; lra). lra. }
  apply Z.lt_le_trans with 1%Z; [lia |].
  rewrite <- (Ztrunc_IZR 1). now apply Ztrunc_le.
Qed.

(** C4. For the raycaster of the game, on a rectangular map and for a viewer
    placed inside the grid, whatever the heading, [cast_all] returns exactly
    [SCREEN_WIDTH] pairs; the pair at index [i] comes from the ray at angle
    [angle - FOV / 2 + i * (FOV / SCREEN_WIDTH)], its wall height is a
    positive integer and its shade an integer between 0 and 255.  The viewer
    is kept inside the grid because far outside it, where [map_row + 1.0]
    is no longer exact in a float, the distance of the code can become [nan]
    and [int] then raises: a case that exact arithmetic does not have. *)
Theorem cast_all_contract (player : Player.t) (m : Map.t) :
  Map.rectangular m = true ->
  0 <= Player.x player < IZR (Map.num_cols m) * IZR TILE_SIZE ->
  0 <= Player.y player < IZR (Map.num_rows m) * IZR TILE_SIZE ->
  exists l,
    Raycaster.cast_all game_raycaster player m = Ret l
    /\ Z.of_nat (length l) = SCREEN_WIDTH
    /\ forall i, (0 <= i < SCREEN_WIDTH)%Z ->
         exists hgt sh sh0 side,
           nth_error l (Z.to_nat i) = Some (hgt, sh)
           /\ Raycaster._cast_ray game_raycaster
                (Player.angle player - FOV / 2
                 + IZR i * (FOV / IZR SCREEN_WIDTH))
                (Player.angle player) player m
              = Ret (hgt, sh0, side)
           /\ sh = (if (side =? 1)%Z then Ztrunc (IZR sh0 * (3 / 4)) else sh0)
           /\ (0 < hgt)%Z /\ (0 <= sh <= 255)%Z.
Proof.
  intros Hm _ _. unfold game_raycaster.
  destruct (cast_all_column SCREEN_WIDTH SCREEN_HEIGHT FOV player m Hm
              ltac:(unfold SCREEN_WIDTH; lia)) as (l & El & Len & Col).
  exists l. split; [exact El |]. split; [exact Len |].
  intros i Hi. destruct (Col i Hi) as (e & Ne & q & side & Hq & Hs & Er & _ & Ee).
  subst e. do 4 eexists. split; [exact Ne |]. split; [exact Er |].
  split; [reflexivity |]. split.
  - apply height_positive; [lra |].
    cbn [Raycaster.__init__ Raycaster.screen_height].
    unfold SCREEN_HEIGHT, Raycaster.MAX_DEPTH. lia.
  - pose proof (shade_value_range q) as S.
    pose proof (darkened_range _ S) as D.
    destruct (side =? 1)%Z; lia.
Qed.

Lemma cast_all_contract_witness :
  exists l,
    Raycaster.cast_all game_raycaster game_player Map.game_map = Ret l
    /\ Z.of_nat (length l) = SCREEN_WIDTH
    /\ forall i, (0 <= i < SCREEN_WIDTH)%Z ->
         exists hgt sh sh0 side,
           nth_error l (Z.to_nat i) = Some (hgt, sh)
           /\ Raycaster._cast_ray game_raycaster
                (Player.angle game_player - FOV / 2
                 + IZR i * (FOV / IZR SCREEN_WIDTH))
                (Player.angle game_player) game_player Map.game_map
              = Ret (hgt, sh0, side)
           /\ sh = (if (side =? 1)%Z then Ztrunc (IZR sh0 * (3 / 4)) else sh0)
           /\ (0 < hgt)%Z /\ (0 <= sh <= 255)%Z.
Proof.
  apply (cast_all_contract game_player Map.game_map eq_refl).
  - unfold game_player, TILE_SIZE. cbn [Player.x Map.num_cols Map.game_map]. lra.
  - unfold game_player, TILE_SIZE. cbn [Player.y Map.num_rows Map.game_map]. lra.
Defined.

(** C7 as the code has it. On a rectangular map, with at least one column,
    every pair that [cast_all] returns has a shade between 30 and 255: the
    shade that [_cast_ray] returns is between 40 and 255, it is kept for an
    east or west face, and for a north or south face it is multiplied by
    0.75 and truncated, so that it is between 30 and 191. *)
Theorem cast_all_shade (w h : Z) (f : R) (player : Player.t) (m : Map.t) :
  Map.rectangular m = true -> (0 < w)%Z ->
  exists l,
    Raycaster.cast_all (Raycaster.__init__ w h f) player m = Ret l
    /\ forall i, (0 <= i < w)%Z ->
         exists hgt sh sh0 side,
           nth_error l (Z.to_nat i) = Some (hgt, sh)
           /\ Raycaster._cast_ray (Raycaster.__init__ w h f)
                (Player.angle player - f / 2 + IZR i * (f / IZR w))
                (Player.angle player) player m
              = Ret (hgt, sh0, side)
           /\ (40 <= sh0 <= 255)%Z
           /\ ((side = 0%Z /\ sh = sh0)
               \/ (side = 1%Z /\ sh = Ztrunc (IZR sh0 * (3 / 4))
                   /\ (30 <= sh <= 191)%Z))
           /\ (30 <= sh <= 255)%Z.
Proof.
  intros Hm Hw.
  destruct (cast_all_column w h f player m Hm Hw) as (l & El & _ & Col).
  exists l. split; [exact El |].
  intros i Hi. destruct (Col i Hi) as (e & Ne & q & side & Hq & Hs & Er & _ & Ee).
  subst e. do 4 eexists. split; [exact Ne |]. split; [exact Er |].
  pose proof (shade_value_range q) as S.
  pose proof (darkened_range _ S) as D.
  split; [exact S |].
  destruct Hs as [-> | ->]; cbn [Z.eqb Pos.eqb].
  - split; [left; split; reflexivity | lia].
  - split; [right; split; [reflexivity | split; [reflexivity | exact D]] | lia].
Qed.

Lemma cast_all_shade_witness :
  exists l,
    Raycaster.cast_all game_raycaster game_player Map.game_map = Ret l
    /\ forall i, (0 <= i < SCREEN_WIDTH)%Z ->
         exists hgt sh, nth_error l (Z.to_nat i) = Some (hgt, sh)
                        /\ (30 <= sh <= 255)%Z.
Proof.
  destruct (cast_all_shade SCREEN_WIDTH SCREEN_HEIGHT FOV game_player
              Map.game_map eq_refl) as (l & El & Col).
  - unfold SCREEN_WIDTH. lia.
  - exists l. split; [exact El |]. intros i Hi.
    destruct (Col i Hi) as (hgt & sh & sh0 & side & Ne & _ & _ & _ & Hsh).
    exists hgt, sh. split; [exact Ne | exact Hsh].
Defined.

(** C7 as stated fails: on the map of the game, the player at [(96, 96)]
    heading down the open column 1 sees the wall 14 tiles away in the middle
    column of the screen with shade 30, the clamped 40 darkened by 0.75. *)
Lemma cast_all_shade_below_40 :
  exists l,
    Raycaster.cast_all game_raycaster (Player.mk 96 96 (PI / 2)) Map.game_map
    = Ret l
    /\ nth_error l 640 = Some (53, 30)%Z
    /\ ~ (40 <= 30 <= 255)%Z.
Proof.
  destruct (cast_all_column SCREEN_WIDTH SCREEN_HEIGHT FOV
              (Player.mk 96 96 (PI / 2)) Map.game_map eq_refl
              ltac:(unfold SCREEN_WIDTH; lia)) as (l & El & _ & Col).
  exists l. split; [exact El |]. split; [| lia].
  destruct (Col 640%Z ltac:(unfold SCREEN_WIDTH; lia))
    as (e & Ne & q & side & _ & _ & _ & Ec & _).
  change (Z.to_nat 640) with 640%nat in Ne. rewrite Ne. f_equal.
  assert (Ec' : Raycaster.cast_column game_raycaster (Player.mk 96 96 (PI / 2))
                  Map.game_map (PI / 2 - FOV / 2) (FOV / IZR SCREEN_WIDTH) 640
                = Ret (53, 30)%Z).
  { unfold Raycaster.cast_column, Raycaster._cast_ray, Raycaster._cast_ray_with.
    cbn [Player.angle].
    replace (Raycaster.ray_angle_of (PI / 2 - FOV / 2) (FOV / IZR SCREEN_WIDTH) 640)
      with (PI / 2)
      by (unfold Raycaster.ray_angle_of, FOV, SCREEN_WIDTH; field).
    destruct (cast_distance_y_Z Raycaster.MAX_DEPTH Map.game_map (PI / 2) (PI / 2)
                (Player.mk 96 96 (PI / 2)) 1 1 1 14) as (s & E & _ & Hs);
      [now left | apply cos_PI2 | apply sin_PI2
       | cbn [Player.x]; lra | cbn [Player.y]; lra | | reflexivity
       | unfold Raycaster.MAX_DEPTH; lia |].
    { intros i Hi.
      assert (H : (i = 1 \/ i = 2 \/ i = 3 \/ i = 4 \/ i = 5 \/ i = 6 \/ i = 7
                   \/ i = 8 \/ i = 9 \/ i = 10 \/ i = 11 \/ i = 12 \/ i = 13)%Z)
        by lia.
      repeat (destruct H as [-> | H]; [reflexivity |]). subst i. reflexivity. }
    unfold FISHEYE_CORRECTION. rewrite E. cbn [bind].
    replace ((IZR 14 - 1 / 2) * IZR TILE_SIZE) with 864 by (unfold TILE_SIZE; lra).
    rewrite wall_height_fin by lra. rewrite shade_fin. cbn [bind]. rewrite Hs.
    cbn [game_raycaster Raycaster.__init__ Raycaster.screen_height].
    unfold SCREEN_HEIGHT.
    replace (Ztrunc (64 / 864 * 720)) with 53%Z
      by (symmetry; apply Ztrunc_eq; lra).
    replace (Ztrunc (864 / 64 * 18)) with 243%Z
      by (symmetry; apply Ztrunc_eq; lra).
    cbn [Z.eqb Pos.eqb py_int fmul bind].
    replace (Ztrunc (IZR (Z.max 40 (Z.min 255 (255 - 243))) * (3 / 4))) with 30%Z;
      [reflexivity |].
    symmetry. change (Z.max 40 (Z.min 255 (255 - 243))) with 40%Z.
    apply Ztrunc_eq; lra. }
  unfold game_raycaster in Ec'. cbn [Player.angle] in Ec. congruence.
Qed.

(** * Further properties *)

(** ** Map *)

Lemma outside_is_wall (m : Map.t) (wx wy : R) :
  wx < 0 \/ IZR (Map.num_cols m) * IZR TILE_SIZE <= wx
  \/ wy < 0 \/ IZR (Map.num_rows m) * IZR TILE_SIZE <= wy ->
  Map.is_wall m wx wy = Ret true.
Proof.
  intro H. unfold Map.is_wall. rewrite !int_of_floordiv.
  rewrite get_tile_out; [reflexivity |].
  unfold TILE_SIZE in *.
  pose proof (Zfloor_bound (wx / 64)) as Bx.
  pose proof (Zfloor_bound (wy / 64)) as By.
  intros [[Hc1 Hc2] [Hr1 Hr2]].
  destruct H as [H | [H | [H | H]]].
  - apply IZR_le in Hc1. lra.
  - assert (L : (Map.num_cols m <= Zfloor (wx / 64))%Z) by (apply Zfloor_lub; lra).
    lia.
  - apply IZR_le in Hr1. lra.
  - assert (L : (Map.num_rows m <= Zfloor (wy / 64))%Z) by (apply Zfloor_lub; lra).
    lia.
Qed.

Lemma clear_inside (m : Map.t) (wx wy : R) :
  clear m wx wy ->
  0 <= wx < IZR (Map.num_cols m) * IZR TILE_SIZE
  /\ 0 <= wy < IZR (Map.num_rows m) * IZR TILE_SIZE.
Proof.
  unfold clear. intro H.
  destruct (Rlt_dec wx 0) as [H1 | H1];
    [rewrite outside_is_wall in H by tauto; discriminate |].
  destruct (Rle_dec (IZR (Map.num_cols m) * IZR TILE_SIZE) wx) as [H2 | H2];
    [rewrite outside_is_wall in H by tauto; discriminate |].
  destruct (Rlt_dec wy 0) as [H3 | H3];
    [rewrite outside_is_wall in H by tauto; discriminate |].
  destruct (Rle_dec (IZR (Map.num_rows m) * IZR TILE_SIZE) wy) as [H4 | H4];
    [rewrite outside_is_wall in H by tauto; discriminate |].
  lra.
Qed.

(** X1. On a rectangular map, a point of the world that lies in the cell
    [(c, r)] of the grid is a wall exactly when the tile stored for that cell
    is [WALL]. *)
Theorem is_wall_by_tile (m : Map.t) (wx wy : R) (c r : Z) :
  Map.rectangular m = true ->
  (0 <= c < Map.num_cols m)%Z -> (0 <= r < Map.num_rows m)%Z ->
  IZR c * IZR TILE_SIZE <= wx < (IZR c + 1) * IZR TILE_SIZE ->
  IZR r * IZR TILE_SIZE <= wy < (IZR r + 1) * IZR TILE_SIZE ->
  exists b, Map.is_wall m wx wy = Ret b
            /\ (b = true <-> Map.stored m c r = Some Map.WALL).
Proof.
  intros Hm Hc Hr Hx Hy. unfold TILE_SIZE in Hx, Hy.
  destruct (get_tile_in m c r Hm Hr Hc) as (t & St & Gt).
  exists (t =? Map.WALL)%Z. split.
  - apply (is_wall_at m wx wy c r t); [lra | lra | exact Gt].
  - rewrite St, Z.eqb_eq. split; [now intros -> | congruence].
Qed.

Lemma is_wall_by_tile_witness :
  exists b, Map.is_wall Map.game_map 150 100 = Ret b
            /\ (b = true <-> Map.stored Map.game_map 2 1 = Some Map.WALL).
Proof.
  apply (is_wall_by_tile Map.game_map 150 100 2 1 eq_refl).
  - cbn. lia.
  - cbn. lia.
  - unfold TILE_SIZE. lra.
  - unfold TILE_SIZE. lra.
Defined.

(** X2. Every point outside the grid is a wall, on every map: a negative
    coordinate, or one at or beyond the width or the height of the grid. *)
Theorem is_wall_outside (m : Map.t) (wx wy : R) :
  wx < 0 \/ IZR (Map.num_cols m) * IZR TILE_SIZE <= wx
  \/ wy < 0 \/ IZR (Map.num_rows m) * IZR TILE_SIZE <= wy ->
  Map.is_wall m wx wy = Ret true.
Proof. apply outside_is_wall. Qed.

Lemma is_wall_outside_witness : Map.is_wall Map.game_map (-1) (-1) = Ret true.
Proof. apply (is_wall_outside Map.game_map (-1) (-1)). left. lra. Defined.

(** ** Player *)

(** What one [_try_move] from an open point gives: the heading is kept, each
    coordinate is kept or moved by its delta, and the point reached after the
    x leg and the one after the y leg are open. *)
Lemma try_move_legs (m : Map.t) (p : Player.t) (dx dy : R) :
  Map.rectangular m = true ->
  exists p', Player._try_move p dx dy m = Ret p'
    /\ Player.angle p' = Player.angle p
    /\ (Player.x p' = Player.x p \/ Player.x p' = Player.x p + dx)
    /\ (Player.y p' = Player.y p \/ Player.y p' = Player.y p + dy)
    /\ (clear m (Player.x p) (Player.y p) ->
        clear m (Player.x p') (Player.y p)
        /\ clear m (Player.x p') (Player.y p')).
Proof.
  intro Hm.
  destruct (try_move_run m p dx dy Hm) as (b1 & b2 & b3 & b4 & H).
  cbv zeta in H. destruct H as (E1 & E2 & E3 & E4 & E).
  eexists. split; [exact E |]. cbn [Player.x Player.y Player.angle].
  split; [reflexivity |].
  split; [destruct (negb b1 && negb b2); auto |].
  split; [destruct (negb b3 && negb b4); auto |].
  intro Hp. unfold clear in *.
  set (x1 := if negb b1 && negb b2 then Player.x p + dx else Player.x p) in *.
  assert (Hx1 : Map.is_wall m x1 (Player.y p) = Ret false).
  { subst x1. destruct b1; cbn [negb andb] in *; [exact Hp |].
    destruct b2; cbn [negb andb] in *; [exact Hp |].
    now apply is_wall_between_y. }
  split; [exact Hx1 |].
  destruct b3; cbn [negb andb]; [exact Hx1 |].
  destruct b4; cbn [negb andb]; [exact Hx1 |].
  now apply is_wall_between_x.
Qed.

(** Between two open points of a row less than a tile apart all points are
    open; the same along a column. *)
Lemma clear_segment_x (m : Map.t) (a b wy s : R) :
  clear m a wy -> clear m b wy -> Rabs (b - a) < IZR TILE_SIZE ->
  0 <= s <= 1 -> clear m (a + s * (b - a)) wy.
Proof.
  unfold clear. intros Ha Hb Hd Hs. apply Rabs_def2 in Hd. unfold TILE_SIZE in Hd.
  destruct (Rle_dec a b) as [L | L].
  - destruct (tile_index_between a (a + s * (b - a)) b) as [E | E];
      [nra | lra | |].
    + rewrite <- Ha. now apply is_wall_same_tile.
    + rewrite <- Hb. now apply is_wall_same_tile.
  - destruct (tile_index_between b (a + s * (b - a)) a) as [E | E];
      [nra | lra | |].
    + rewrite <- Hb. now apply is_wall_same_tile.
    + rewrite <- Ha. now apply is_wall_same_tile.
Qed.

Lemma clear_segment_y (m : Map.t) (a b wx s : R) :
  clear m wx a -> clear m wx b -> Rabs (b - a) < IZR TILE_SIZE ->
  0 <= s <= 1 -> clear m wx (a + s * (b - a)).
Proof.
  unfold clear. intros Ha Hb Hd Hs. apply Rabs_def2 in Hd. unfold TILE_SIZE in Hd.
  destruct (Rle_dec a b) as [L | L].
  - destruct (tile_index_between a (a + s * (b - a)) b) as [E | E];
      [nra | lra | |].
    + rewrite <- Ha. now apply is_wall_same_tile.
    + rewrite <- Hb. now apply is_wall_same_tile.
  - destruct (tile_index_between b (a + s * (b - a)) a) as [E | E];
      [nra | lra | |].
    + rewrite <- Hb. now apply is_wall_same_tile.
    + rewrite <- Ha. now apply is_wall_same_tile.
Qed.

(** X3. A move shorter than a tile on each axis never passes through a wall:
    on a rectangular map, from an open point and with [|delta_x|] and
    [|delta_y|] below [TILE_SIZE], every point of the path of [_try_move],
    the x leg at the old [y] followed by the y leg at the new [x], is open. *)
Theorem try_move_path_open (m : Map.t) (p : Player.t) (dx dy : R) :
  Map.rectangular m = true ->
  clear m (Player.x p) (Player.y p) ->
  Rabs dx < IZR TILE_SIZE -> Rabs dy < IZR TILE_SIZE ->
  exists p', Player._try_move p dx dy m = Ret p'
    /\ (forall s, 0 <= s <= 1 ->
          clear m (Player.x p + s * (Player.x p' - Player.x p)) (Player.y p))
    /\ (forall s, 0 <= s <= 1 ->
          clear m (Player.x p') (Player.y p + s * (Player.y p' - Player.y p))).
Proof.
  intros Hm Hp Hdx Hdy.
  destruct (try_move_legs m p dx dy Hm) as (p' & E & _ & Hx & Hy & Hc).
  destruct (Hc Hp) as [C1 C2].
  exists p'. split; [exact E |]. split; intros s Hs.
  - apply clear_segment_x; try assumption.
    destruct Hx as [-> | ->].
    + replace (Player.x p - Player.x p) with 0 by ring.
      rewrite Rabs_R0. unfold TILE_SIZE. lra.
    + replace (Player.x p + dx - Player.x p) with dx by ring. exact Hdx.
  - apply clear_segment_y; try assumption.
    destruct Hy as [-> | ->].
    + replace (Player.y p - Player.y p) with 0 by ring.
      rewrite Rabs_R0. unfold TILE_SIZE. lra.
    + replace (Player.y p + dy - Player.y p) with dy by ring. exact Hdy.
Qed.

Lemma try_move_path_open_witness :
  exists p', Player._try_move (Player.mk 96 96 0) 40 (-20) Map.game_map = Ret p'
    /\ (forall s, 0 <= s <= 1 ->
          clear Map.game_map (96 + s * (Player.x p' - 96)) 96)
    /\ (forall s, 0 <= s <= 1 ->
          clear Map.game_map (Player.x p') (96 + s * (Player.y p' - 96))).
Proof.
  apply (try_move_path_open Map.game_map (Player.mk 96 96 0) 40 (-20) eq_refl).
  - probe 1%Z 1%Z.
  - unfold TILE_SIZE. rewrite Rabs_pos_eq; lra.
  - unfold TILE_SIZE. rewrite Rabs_left; lra.
Defined.

Lemma py_mod_range (a b : R) : 0 < b -> 0 <= py_mod a b < b.
Proof.
  intro Hb. unfold py_mod. pose proof (Zfloor_bound (a / b)) as [L U].
  assert (E : a = a / b * b) by (field; lra).
  split.
  - apply Rmult_le_compat_r with (r := b) in L; [| lra]. lra.
  - apply Rmult_lt_compat_r with (r := b) in U; [| lra]. lra.
Qed.

(** One of the four conditional moves of [handle_input], for a delta of at
    most [MOVE_SPEED] on each axis. *)
Lemma key_move (m : Map.t) (p : Player.t) (key : bool) (dx dy : R) :
  Map.rectangular m = true ->
  Rabs dx <= Player.MOVE_SPEED -> Rabs dy <= Player.MOVE_SPEED ->
  exists p',
    (if key then Player._try_move p dx dy m else Ret p) = Ret p'
    /\ Player.angle p' = Player.angle p
    /\ Rabs (Player.x p' - Player.x p) <= Player.MOVE_SPEED * IZR (Z.b2z key)
    /\ Rabs (Player.y p' - Player.y p) <= Player.MOVE_SPEED * IZR (Z.b2z key)
    /\ (clear m (Player.x p) (Player.y p) -> clear m (Player.x p') (Player.y p')).
Proof.
  intros Hm Hdx Hdy. unfold Player.MOVE_SPEED in *. destruct key; cbn [Z.b2z].
  - destruct (try_move_legs m p dx dy Hm) as (p' & E & A & Hx & Hy & Hc).
    exists p'. split; [exact E |]. split; [exact A |].
    split; [| split; [| intro C; now apply Hc]].
    + destruct Hx as [-> | ->].
      * replace (Player.x p - Player.x p) with 0 by ring. rewrite Rabs_R0. lra.
      * replace (Player.x p + dx - Player.x p) with dx by ring. lra.
    + destruct Hy as [-> | ->].
      * replace (Player.y p - Player.y p) with 0 by ring. rewrite Rabs_R0. lra.
      * replace (Player.y p + dy - Player.y p) with dy by ring. lra.
  - exists p. split; [reflexivity |]. split; [reflexivity |].
    replace (Player.x p - Player.x p) with 0 by ring.
    replace (Player.y p - Player.y p) with 0 by ring.
    rewrite Rabs_R0. repeat split; try lra. auto.
Qed.

Lemma forward_bound (a : R) :
  Rabs (cos a * Player.MOVE_SPEED) <= Player.MOVE_SPEED
  /\ Rabs (sin a * Player.MOVE_SPEED) <= Player.MOVE_SPEED
  /\ Rabs (- (cos a * Player.MOVE_SPEED)) <= Player.MOVE_SPEED
  /\ Rabs (- (sin a * Player.MOVE_SPEED)) <= Player.MOVE_SPEED.
Proof.
  unfold Player.MOVE_SPEED. rewrite !Rabs_Ropp.
  pose proof (COS_bound a) as C. pose proof (SIN_bound a) as S.
  repeat split; apply Rabs_le; lra.
Qed.

(** What [handle_input] gives on a rectangular map. *)
Lemma handle_input_run (m : Map.t) (p : Player.t) (keys : Player.keys)
  (mouse_dx : Z) :
  Map.rectangular m = true ->
  exists p',
    Player.handle_input p keys m mouse_dx = Ret p'
    /\ Player.angle p'
       = py_mod (Player.angle p + IZR mouse_dx * Player.ROT_SPEED) (2 * PI)
    /\ Rabs (Player.x p' - Player.x p)
       <= Player.MOVE_SPEED * IZR (keys_down keys)
    /\ Rabs (Player.y p' - Player.y p)
       <= Player.MOVE_SPEED * IZR (keys_down keys)
    /\ (clear m (Player.x p) (Player.y p) -> clear m (Player.x p') (Player.y p')).
Proof.
  intro Hm. unfold Player.handle_input.
  set (a := py_mod (Player.angle p + IZR mouse_dx * Player.ROT_SPEED) (2 * PI)).
  set (p0 := Player.mk (Player.x p) (Player.y p) a).
  cbn [Player.angle] in *.
  destruct (forward_bound (Player.angle p0)) as (Bc & Bs & Bnc & Bns).
  set (fdx := cos (Player.angle p0) * Player.MOVE_SPEED) in *.
  set (fdy := sin (Player.angle p0) * Player.MOVE_SPEED) in *.
  destruct (key_move m p0 (Player.K_w keys) fdx fdy Hm Bc Bs)
    as (p1 & E1 & A1 & X1 & Y1 & C1).
  destruct (key_move m p1 (Player.K_s keys) (- fdx) (- fdy) Hm Bnc Bns)
    as (p2 & E2 & A2 & X2 & Y2 & C2).
  destruct (key_move m p2 (Player.K_a keys) fdy (- fdx) Hm Bs Bnc)
    as (p3 & E3 & A3 & X3 & Y3 & C3).
  destruct (key_move m p3 (Player.K_d keys) (- fdy) fdx Hm Bns Bc)
    as (p4 & E4 & A4 & X4 & Y4 & C4).
  exists p4. rewrite E1. cbn [bind]. rewrite E2. cbn [bind].
  rewrite E3. cbn [bind]. split; [exact E4 |].
  split; [rewrite A4, A3, A2, A1; reflexivity |].
  unfold keys_down. rewrite !plus_IZR.
  subst p0. cbn [Player.x Player.y] in *.
  split; [| split].
  - replace (Player.x p4 - Player.x p)
      with ((Player.x p4 - Player.x p3) + (Player.x p3 - Player.x p2)
            + (Player.x p2 - Player.x p1) + (Player.x p1 - Player.x p)) by ring.
    eapply Rle_trans; [apply Rabs_triang |].
    eapply Rle_trans; [apply Rplus_le_compat_r, Rabs_triang |].
    eapply Rle_trans; [apply Rplus_le_compat_r, Rplus_le_compat_r, Rabs_triang |].
    lra.
  - replace (Player.y p4 - Player.y p)
      with ((Player.y p4 - Player.y p3) + (Player.y p3 - Player.y p2)
            + (Player.y p2 - Player.y p1) + (Player.y p1 - Player.y p)) by ring.
    eapply Rle_trans; [apply Rabs_triang |].
    eapply Rle_trans; [apply Rplus_le_compat_r, Rabs_triang |].
    eapply Rle_trans; [apply Rplus_le_compat_r, Rplus_le_compat_r, Rabs_triang |].
    lra.
  - auto.
Qed.

(** X4. On a rectangular map, for a mouse motion that fits a 64-bit integer
    and whatever keys are down, [handle_input] returns, and the new heading
    is the old one plus [mouse_dx * ROT_SPEED] less a whole number of turns
    and lies between 0 and [2 pi].  The upper bound is not strict: the
    remainder of exact arithmetic is below [2 pi], but the one of floats can
    round up to [2 pi] itself. *)
Theorem handle_input_heading (m : Map.t) (p : Player.t) (keys : Player.keys)
  (mouse_dx : Z) :
  Map.rectangular m = true -> (Z.abs mouse_dx < 2 ^ 63)%Z ->
  exists p',
    Player.handle_input p keys m mouse_dx = Ret p'
    /\ 0 <= Player.angle p' <= 2 * PI
    /\ exists n : Z,
        Player.angle p'
        = Player.angle p + IZR mouse_dx * Player.ROT_SPEED - IZR n * (2 * PI).
Proof.
  intros Hm _.
  destruct (handle_input_run m p keys mouse_dx Hm) as (p' & E & A & _).
  exists p'. split; [exact E |]. rewrite A. split.
  - pose proof PI_RGT_0 as HP.
    destruct (py_mod_range (Player.angle p + IZR mouse_dx * Player.ROT_SPEED)
                (2 * PI) ltac:(lra)) as [L U].
    split; [exact L | apply Rlt_le; exact U].
  - eexists. unfold py_mod. reflexivity.
Qed.

Lemma handle_input_heading_witness :
  exists p',
    Player.handle_input game_player (Player.mk_keys true true true true)
                        Map.game_map (-100000) = Ret p'
    /\ 0 <= Player.angle p' <= 2 * PI
    /\ exists n : Z,
        Player.angle p'
        = Player.angle game_player + IZR (-100000) * Player.ROT_SPEED
          - IZR n * (2 * PI).
Proof.
  apply (handle_input_heading Map.game_map game_player
           (Player.mk_keys true true true true) (-100000) eq_refl).
  cbn. lia.
Defined.

(** X5. On a rectangular map one call of [handle_input] moves the player by
    at most [MOVE_SPEED] per key held down along each axis; with no key down
    the position is unchanged. *)
Theorem handle_input_displacement (m : Map.t) (p : Player.t)
  (keys : Player.keys) (mouse_dx : Z) :
  Map.rectangular m = true ->
  exists p',
    Player.handle_input p keys m mouse_dx = Ret p'
    /\ Rabs (Player.x p' - Player.x p)
       <= Player.MOVE_SPEED * IZR (keys_down keys)
    /\ Rabs (Player.y p' - Player.y p)
       <= Player.MOVE_SPEED * IZR (keys_down keys)
    /\ (keys_down keys = 0%Z ->
        Player.x p' = Player.x p /\ Player.y p' = Player.y p).
Proof.
  intro Hm.
  destruct (handle_input_run m p keys mouse_dx Hm) as (p' & E & _ & Hx & Hy & _).
  exists p'. split; [exact E |]. split; [exact Hx |]. split; [exact Hy |].
  intro K. rewrite K in Hx, Hy. rewrite Rmult_0_r in Hx, Hy.
  split.
  - apply Rminus_diag_uniq.
    destruct (Req_dec (Player.x p' - Player.x p) 0) as [Z0 | N]; [exact Z0 |].
    apply Rabs_pos_lt in N. lra.
  - apply Rminus_diag_uniq.
    destruct (Req_dec (Player.y p' - Player.y p) 0) as [Z0 | N]; [exact Z0 |].
    apply Rabs_pos_lt in N. lra.
Qed.

Lemma handle_input_displacement_witness :
  exists p',
    Player.handle_input game_player (Player.mk_keys true false false true)
                        Map.game_map 12 = Ret p'
    /\ Rabs (Player.x p' - Player.x game_player) <= Player.MOVE_SPEED * IZR 2
    /\ Rabs (Player.y p' - Player.y game_player) <= Player.MOVE_SPEED * IZR 2.
Proof.
  destruct (handle_input_displacement Map.game_map game_player
              (Player.mk_keys true false false true) 12 eq_refl)
    as (p' & E & Hx & Hy & _).
  exists p'. split; [exact E |]. split; [exact Hx | exact Hy].
Defined.

Lemma handle_inputs_run (m : Map.t) (inputs : list (Player.keys * Z)) :
  Map.rectangular m = true ->
  forall p : Player.t,
    clear m (Player.x p) (Player.y p) ->
    exists p', handle_inputs inputs p m = Ret p'
               /\ clear m (Player.x p') (Player.y p').
Proof.
  intro Hm. induction inputs as [| [keys mouse_dx] rest IH]; intros p Hp.
  - exists p. split; [reflexivity | exact Hp].
  - destruct (handle_input_run m p keys mouse_dx Hm) as (p1 & E & _ & _ & _ & C).
    destruct (IH p1 (C Hp)) as (p' & E' & C').
    exists p'. cbn [handle_inputs]. rewrite E. cbn [bind]. split; assumption.
Qed.

(** X6. The player cannot leave the map or enter a wall: on a rectangular
    map, a player who starts at an open point is, after any number of frames
    of input, still at an open point, which lies inside the grid. *)
Theorem player_stays_in_map (m : Map.t) (inputs : list (Player.keys * Z))
  (p : Player.t) :
  Map.rectangular m = true ->
  clear m (Player.x p) (Player.y p) ->
  exists p', handle_inputs inputs p m = Ret p'
    /\ clear m (Player.x p') (Player.y p')
    /\ 0 <= Player.x p' < IZR (Map.num_cols m) * IZR TILE_SIZE
    /\ 0 <= Player.y p' < IZR (Map.num_rows m) * IZR TILE_SIZE.
Proof.
  intros Hm Hp.
  destruct (handle_inputs_run m inputs Hm p Hp) as (p' & E & C).
  exists p'. split; [exact E |]. split; [exact C |]. now apply clear_inside.
Qed.

Lemma player_stays_in_map_witness :
  exists p',
    handle_inputs [ (Player.mk_keys true false false false, 40%Z);
                    (Player.mk_keys false false true false, (-7)%Z) ]
                  game_player Map.game_map = Ret p'
    /\ clear Map.game_map (Player.x p') (Player.y p')
    /\ 0 <= Player.x p' < IZR (Map.num_cols Map.game_map) * IZR TILE_SIZE
    /\ 0 <= Player.y p' < IZR (Map.num_rows Map.game_map) * IZR TILE_SIZE.
Proof.
  apply (player_stays_in_map Map.game_map _ game_player eq_refl).
  unfold game_player, TILE_SIZE. probe 1%Z 1%Z.
Defined.

(** ** The cells of a ray *)

Local Open Scope Z_scope.

(** A property of the loop variables that every pass keeps holds when the
    loop returns. *)
Lemma dda_loop_invariant (P : Raycaster.dda -> Prop) (md : Z) (m : Map.t)
  (r : Raycaster.ray) :
  (forall s s', P s -> Raycaster.dda_test md s = true ->
                Raycaster.dda_body m r s = Ret s' -> P s') ->
  forall (fuel : nat) (s s' : Raycaster.dda),
    P s -> Raycaster.dda_loop fuel md m r s = Ret s' -> P s'.
Proof.
  intros Step. induction fuel as [| fuel IH]; intros s s' Hs L;
    cbn [Raycaster.dda_loop] in L;
    destruct (Raycaster.dda_test md s) eqn:T; try discriminate;
    try (injection L as <-; exact Hs).
  destruct (Raycaster.dda_body m r s) as [s1 | e |] eqn:B; cbn [bind] in L;
    try discriminate.
  apply (IH s1 s'); [now apply (Step s s1) | exact L].
Qed.

(** The cell entered by a pass, and whether the pass reports a hit. *)
Lemma dda_body_cell (m : Map.t) (r : Raycaster.ray) (s s' : Raycaster.dda) :
  Raycaster.dda_body m r s = Ret s' ->
  Raycaster.wall_hit s = false ->
  exists t, Map.get_tile m (Raycaster.map_col s') (Raycaster.map_row s') = Ret t
            /\ Raycaster.wall_hit s' = (t =? Map.WALL).
Proof.
  unfold Raycaster.dda_body. intros B W.
  destruct (flt (Raycaster.side_dist_x s) (Raycaster.side_dist_y s));
    cbn [Raycaster.map_col Raycaster.map_row Raycaster.hit_side
         Raycaster.depth Raycaster.wall_hit
         Raycaster.side_dist_x Raycaster.side_dist_y] in B;
    match type of B with context [Map.get_tile ?u ?v ?w] =>
      destruct (Map.get_tile u v w) as [t | e |] eqn:G end;
    cbn [bind] in B; try discriminate; injection B as <-;
    cbn [Raycaster.map_col Raycaster.map_row Raycaster.wall_hit];
    exists t; (split; [exact G |]); rewrite W; destruct (t =? Map.WALL);
    reflexivity.
Qed.

Lemma dda_test_true (md : Z) (s : Raycaster.dda) :
  Raycaster.dda_test md s = true ->
  Raycaster.wall_hit s = false /\ Raycaster.depth s < md.
Proof.
  unfold Raycaster.dda_test. intro T. apply andb_prop in T. destruct T as [W D].
  apply negb_true_iff in W. apply Z.ltb_lt in D. auto.
Qed.

Lemma ray_setup_start (ray_angle : R) (player : Player.t) :
  let r := fst (Raycaster.ray_setup ray_angle player) in
  let s0 := snd (Raycaster.ray_setup ray_angle player) in
  Raycaster.depth s0 = 0 /\ Raycaster.wall_hit s0 = false
  /\ Raycaster.hit_side s0 = 0
  /\ Raycaster.map_col s0 = Zfloor (Player.x player / IZR TILE_SIZE)
  /\ Raycaster.map_row s0 = Zfloor (Player.y player / IZR TILE_SIZE)
  /\ Raycaster.step_x r = (if Rlt_dec (cos ray_angle) 0 then -1 else 1)
  /\ Raycaster.step_y r = (if Rlt_dec (sin ray_angle) 0 then -1 else 1).
Proof.
  unfold Raycaster.ray_setup. rewrite !int_of_floordiv.
  destruct (Rlt_dec (cos ray_angle) 0); destruct (Rlt_dec (sin ray_angle) 0);
    cbn; repeat split; reflexivity.
Qed.

Lemma step_unit (d : R) :
  (if Rlt_dec d 0 then -1 else 1) = -1 \/ (if Rlt_dec d 0 then -1 else 1) = 1.
Proof. destruct (Rlt_dec d 0); auto. Qed.

(** X7. On a rectangular map the loop reports a hit only for a wall: when it
    returns with [wall_hit] set, at least one pass was made and the cell it
    stands in is a [WALL] tile; when it returns without, it has made exactly
    [max_depth] passes (none for a negative limit). *)
Theorem dda_stops_at_wall (max_depth : Z) (ray_angle : R) (player : Player.t)
  (m : Map.t) :
  Map.rectangular m = true ->
  let r := fst (Raycaster.ray_setup ray_angle player) in
  let s0 := snd (Raycaster.ray_setup ray_angle player) in
  exists s,
    Raycaster.dda_loop (Z.to_nat max_depth) max_depth m r s0 = Ret s
    /\ (Raycaster.wall_hit s = true ->
        1 <= Raycaster.depth s <= max_depth
        /\ Map.get_tile m (Raycaster.map_col s) (Raycaster.map_row s)
           = Ret Map.WALL)
    /\ (Raycaster.wall_hit s = false ->
        Raycaster.depth s = Z.max 0 max_depth).
Proof.
  intros Hm r s0.
  destruct (ray_setup_start ray_angle player) as (D0 & W0 & _).
  fold r s0 in D0, W0.
  destruct (dda_loop_total max_depth m r (Z.to_nat max_depth) Hm s0 ltac:(lia))
    as [s L].
  exists s. split; [exact L |].
  pose proof (dda_steps_run max_depth m r (Z.to_nat max_depth) s0 ltac:(lia)) as S.
  destruct (Raycaster.dda_steps (Z.to_nat max_depth) max_depth m r s0)
    as [[s' n] | e |]; [| congruence | contradiction].
  destruct S as (L' & T & D & N & _).
  assert (s' = s) by congruence. subst s'.
  assert (I : Raycaster.wall_hit s = true ->
              1 <= Raycaster.depth s
              /\ Map.get_tile m (Raycaster.map_col s) (Raycaster.map_row s)
                 = Ret Map.WALL).
  { apply (dda_loop_invariant
             (fun s => 0 <= Raycaster.depth s
                       /\ (Raycaster.wall_hit s = true ->
                           1 <= Raycaster.depth s
                           /\ Map.get_tile m (Raycaster.map_col s)
                                (Raycaster.map_row s) = Ret Map.WALL))
             max_depth m r) with (fuel := Z.to_nat max_depth) (s := s0);
      [| split; [lia | congruence] | exact L].
    intros s1 s2 [Hd _] T1 B. apply dda_test_true in T1. destruct T1 as [W1 _].
    destruct (dda_body_step m r s1 s2 B) as [D2 _].
    destruct (dda_body_cell m r s1 s2 B W1) as (t & G & W2).
    split; [lia |]. intro W. split; [lia |].
    rewrite W in W2. symmetry in W2. apply Z.eqb_eq in W2. now subst t. }
  split.
  - intro W. destruct (I W) as [I1 I2]. split; [lia | exact I2].
  - intro W. unfold Raycaster.dda_test in T. rewrite W in T. cbn in T.
    apply Z.ltb_ge in T. lia.
Qed.

Lemma dda_stops_at_wall_witness :
  exists s,
    Raycaster.dda_loop (Z.to_nat Raycaster.MAX_DEPTH) Raycaster.MAX_DEPTH
      Map.game_map (fst (Raycaster.ray_setup (3 / 10) game_player))
      (snd (Raycaster.ray_setup (3 / 10) game_player)) = Ret s
    /\ (Raycaster.wall_hit s = true ->
        1 <= Raycaster.depth s <= Raycaster.MAX_DEPTH
        /\ Map.get_tile Map.game_map (Raycaster.map_col s) (Raycaster.map_row s)
           = Ret Map.WALL)
    /\ (Raycaster.wall_hit s = false ->
        Raycaster.depth s = Z.max 0 Raycaster.MAX_DEPTH).
Proof.
  apply (dda_stops_at_wall Raycaster.MAX_DEPTH (3 / 10) game_player
           Map.game_map eq_refl).
Defined.

(** X8. A ray from inside the grid stops at its edge: on a rectangular map,
    for a player inside the grid, the loop returns standing in a cell at most
    one step outside the grid, and it stands inside the grid if no wall was
    hit, since every cell outside the grid counts as a wall. *)
Theorem dda_stays_near_grid (max_depth : Z) (ray_angle : R) (player : Player.t)
  (m : Map.t) :
  Map.rectangular m = true ->
  (0 <= Player.x player < IZR (Map.num_cols m) * IZR TILE_SIZE)%R ->
  (0 <= Player.y player < IZR (Map.num_rows m) * IZR TILE_SIZE)%R ->
  let r := fst (Raycaster.ray_setup ray_angle player) in
  let s0 := snd (Raycaster.ray_setup ray_angle player) in
  exists s,
    Raycaster.dda_loop (Z.to_nat max_depth) max_depth m r s0 = Ret s
    /\ -1 <= Raycaster.map_col s <= Map.num_cols m
    /\ -1 <= Raycaster.map_row s <= Map.num_rows m
    /\ (Raycaster.wall_hit s = false ->
        0 <= Raycaster.map_col s < Map.num_cols m
        /\ 0 <= Raycaster.map_row s < Map.num_rows m).
Proof.
  intros Hm Hx Hy r s0.
  destruct (ray_setup_start ray_angle player) as (D0 & W0 & _ & C0 & R0 & Sx & Sy).
  fold r s0 in D0, W0, C0, R0, Sx, Sy.
  destruct (dda_loop_total max_depth m r (Z.to_nat max_depth) Hm s0 ltac:(lia))
    as [s L].
  exists s. split; [exact L |].
  set (inside := fun c w : Z =>
                   0 <= c < Map.num_cols m /\ 0 <= w < Map.num_rows m).
  assert (I0 : inside (Raycaster.map_col s0) (Raycaster.map_row s0)).
  { unfold inside. rewrite C0, R0. unfold TILE_SIZE in *.
    pose proof (Zfloor_bound (Player.x player / 64)) as Bx.
    pose proof (Zfloor_bound (Player.y player / 64)) as By.
    assert (0 <= Zfloor (Player.x player / 64)) by (apply Zfloor_lub; lra).
    assert (0 <= Zfloor (Player.y player / 64)) by (apply Zfloor_lub; lra).
    assert (Zfloor (Player.x player / 64) < Map.num_cols m)
      by (apply lt_IZR; lra).
    assert (Zfloor (Player.y player / 64) < Map.num_rows m)
      by (apply lt_IZR; lra).
    lia. }
  pose proof (step_unit (cos ray_angle)) as Ux. rewrite <- Sx in Ux.
  pose proof (step_unit (sin ray_angle)) as Uy. rewrite <- Sy in Uy.
  assert (I : (-1 <= Raycaster.map_col s <= Map.num_cols m
               /\ -1 <= Raycaster.map_row s <= Map.num_rows m)
              /\ (Raycaster.wall_hit s = false ->
                  inside (Raycaster.map_col s) (Raycaster.map_row s))).
  { apply (dda_loop_invariant
             (fun s => (-1 <= Raycaster.map_col s <= Map.num_cols m
                        /\ -1 <= Raycaster.map_row s <= Map.num_rows m)
                       /\ (Raycaster.wall_hit s = false ->
                           inside (Raycaster.map_col s) (Raycaster.map_row s)))
             max_depth m r) with (fuel := Z.to_nat max_depth) (s := s0);
      [| unfold inside in *; split; [lia | intros _; exact I0] | exact L].
    intros s1 s2 [_ In1] T1 B. apply dda_test_true in T1. destruct T1 as [W1 _].
    specialize (In1 W1). unfold inside in In1.
    destruct (dda_body_step m r s1 s2 B) as [_ Mv].
    destruct (dda_body_cell m r s1 s2 B W1) as (t & G & W2).
    split; [destruct Mv as [(Mc & Mr & _) | (Mc & Mr & _)]; lia |].
    intro W. rewrite W in W2. unfold inside.
    destruct (Z_lt_le_dec (Raycaster.map_col s2) 0) as [O | O];
      [rewrite get_tile_out in G by lia; injection G as <-; discriminate |].
    destruct (Z_lt_le_dec (Raycaster.map_col s2) (Map.num_cols m)) as [O1 | O1];
      [| rewrite get_tile_out in G by lia; injection G as <-; discriminate].
    destruct (Z_lt_le_dec (Raycaster.map_row s2) 0) as [O2 | O2];
      [rewrite get_tile_out in G by lia; injection G as <-; discriminate |].
    destruct (Z_lt_le_dec (Raycaster.map_row s2) (Map.num_rows m)) as [O3 | O3];
      [| rewrite get_tile_out in G by lia; injection G as <-; discriminate].
    lia. }
  destruct I as [[Ic Ir] In]. split; [exact Ic |]. split; [exact Ir |].
  exact In.
Qed.

Lemma dda_stays_near_grid_witness :
  exists s,
    Raycaster.dda_loop (Z.to_nat Raycaster.MAX_DEPTH) Raycaster.MAX_DEPTH
      Map.game_map (fst (Raycaster.ray_setup (3 / 10) game_player))
      (snd (Raycaster.ray_setup (3 / 10) game_player)) = Ret s
    /\ -1 <= Raycaster.map_col s <= Map.num_cols Map.game_map
    /\ -1 <= Raycaster.map_row s <= Map.num_rows Map.game_map
    /\ (Raycaster.wall_hit s = false ->
        0 <= Raycaster.map_col s < Map.num_cols Map.game_map
        /\ 0 <= Raycaster.map_row s < Map.num_rows Map.game_map).
Proof.
  apply (dda_stays_near_grid Raycaster.MAX_DEPTH (3 / 10) game_player
           Map.game_map eq_refl).
  - unfold game_player, TILE_SIZE. cbn [Player.x Map.num_cols Map.game_map]. lra.
  - unfold game_player, TILE_SIZE. cbn [Player.y Map.num_rows Map.game_map]. lra.
Defined.

(** X9. A viewer boxed in ahead sees the wall after one pass: when the two
    cells that the ray can enter first, the neighbour along x and the
    neighbour along y in the directions of the ray, are both [WALL], the loop
    returns after exactly one pass with a hit, on every map and for every
    depth limit of at least one. *)
Theorem dda_one_pass (max_depth : Z) (ray_angle : R) (player : Player.t)
  (m : Map.t) :
  let r := fst (Raycaster.ray_setup ray_angle player) in
  let s0 := snd (Raycaster.ray_setup ray_angle player) in
  1 <= max_depth ->
  Map.get_tile m (Raycaster.map_col s0 + Raycaster.step_x r)
                 (Raycaster.map_row s0) = Ret Map.WALL ->
  Map.get_tile m (Raycaster.map_col s0)
                 (Raycaster.map_row s0 + Raycaster.step_y r) = Ret Map.WALL ->
  exists s,
    Raycaster.dda_loop (Z.to_nat max_depth) max_depth m r s0 = Ret s
    /\ Raycaster.depth s = 1 /\ Raycaster.wall_hit s = true.
Proof.
  intros r s0 Hmd Gx Gy.
  destruct (ray_setup_start ray_angle player) as (D0 & W0 & _).
  fold r s0 in D0, W0.
  destruct (Z.to_nat max_depth) as [| fuel] eqn:F; [lia |].
  cbn [Raycaster.dda_loop]. unfold Raycaster.dda_test at 1. rewrite W0, D0.
  destruct (Z.ltb_spec 0 max_depth); [| lia]. cbn [negb andb].
  unfold Raycaster.dda_body.
  destruct (flt (Raycaster.side_dist_x s0) (Raycaster.side_dist_y s0));
    cbn [Raycaster.map_col Raycaster.map_row Raycaster.hit_side
         Raycaster.depth Raycaster.wall_hit
         Raycaster.side_dist_x Raycaster.side_dist_y];
    [rewrite Gx | rewrite Gy]; cbn [bind Z.eqb Map.WALL Pos.eqb];
    rewrite dda_loop_stop by reflexivity;
    eexists; (split; [reflexivity |]); cbn [Raycaster.depth Raycaster.wall_hit];
    (split; [lia | reflexivity]).
Qed.

Lemma dda_one_pass_witness :
  exists s,
    Raycaster.dda_loop (Z.to_nat Raycaster.MAX_DEPTH) Raycaster.MAX_DEPTH ring3
      (fst (Raycaster.ray_setup 1 (Player.mk 96 96 1)))
      (snd (Raycaster.ray_setup 1 (Player.mk 96 96 1))) = Ret s
    /\ Raycaster.depth s = 1 /\ Raycaster.wall_hit s = true.
Proof.
  destruct (ray_setup_start 1 (Player.mk 96 96 1)) as (_ & _ & _ & C0 & R0 & Sx & Sy).
  cbn [Player.x Player.y] in C0, R0.
  assert (E : Zfloor (96 / IZR TILE_SIZE) = 1)
    by (apply Zfloor_eq; unfold TILE_SIZE; lra).
  rewrite E in C0, R0.
  apply (dda_one_pass Raycaster.MAX_DEPTH 1 (Player.mk 96 96 1) ring3).
  - unfold Raycaster.MAX_DEPTH. lia.
  - rewrite C0, R0, Sx. destruct (Rlt_dec (cos 1) 0); reflexivity.
  - rewrite C0, R0, Sy. destruct (Rlt_dec (sin 1) 0); reflexivity.
Defined.

(** ** What a cast returns *)

Local Open Scope R_scope.

(** X10. On a rectangular map, for a viewer inside the grid, a screen height
    that fits a 32-bit integer and a ray whose direction components have
    reciprocals that are finite floats, [_cast_ray] returns: a face 0 or 1, a
    shade between 40 and 255 and a wall height [h] with
    [screen_height < (MAX_DEPTH + 1) * (h + 1)] and
    [h <= 640000 * screen_height], the distance being between the clamp
    0.0001 and [MAX_DEPTH + 1] tiles.  The conditions on the viewer and on
    the ray keep the code away from the product [0.0 * inf], whose [nan]
    passes the clamp and makes [int] raise; exact arithmetic does not need
    them. *)
Theorem cast_ray_range (self : Raycaster.t) (ray_angle player_angle : R)
  (player : Player.t) (m : Map.t) :
  Map.rectangular m = true ->
  (0 <= Raycaster.screen_height self < 2 ^ 31)%Z ->
  0 <= Player.x player < IZR (Map.num_cols m) * IZR TILE_SIZE ->
  0 <= Player.y player < IZR (Map.num_rows m) * IZR TILE_SIZE ->
  finite_reciprocal (cos ray_angle) -> finite_reciprocal (sin ray_angle) ->
  exists hgt sh side,
    Raycaster._cast_ray self ray_angle player_angle player m
    = Ret (hgt, sh, side)
    /\ (Raycaster.screen_height self < (Raycaster.MAX_DEPTH + 1) * (hgt + 1))%Z
    /\ (hgt <= 640000 * Raycaster.screen_height self)%Z
    /\ (40 <= sh <= 255)%Z
    /\ (side = 0 \/ side = 1)%Z.
Proof.
  intros Hm [Hh _] _ _ _ _.
  destruct (cast_ray_ok self ray_angle player_angle player m Hm)
    as (q & side & Hq & Hs & E).
  do 3 eexists. split; [exact E |].
  unfold Raycaster.MAX_DEPTH in *.
  set (H := IZR (Raycaster.screen_height self)) in *.
  assert (HH : 0 <= H) by (subst H; now apply IZR_le).
  assert (I1 : / 1344 <= / q) by (apply Rinv_le_contravar; lra).
  assert (I2 : / q <= / (1 / 10000)) by (apply Rinv_le_contravar; lra).
  replace (/ (1 / 10000)) with 10000 in I2 by field.
  assert (V1 : H / 21 <= 64 / q * H).
  { unfold Rdiv. replace (H * / 21) with (64 * / 1344 * H) by field.
    apply Rmult_le_compat_r; [exact HH |]. lra. }
  assert (V2 : 64 / q * H <= 640000 * H).
  { unfold Rdiv. apply Rmult_le_compat_r; [exact HH |]. lra. }
  assert (V0 : 0 <= 64 / q * H) by lra.
  rewrite (Ztrunc_nonneg _ V0).
  pose proof (Zfloor_bound (64 / q * H)) as [L U].
  split; [| split; [| split; [apply shade_value_range | exact Hs]]].
  - apply lt_IZR. rewrite mult_IZR, !plus_IZR. fold H. lra.
  - apply le_IZR. rewrite mult_IZR. fold H. lra.
Qed.

Lemma cast_ray_range_witness :
  exists hgt sh side,
    Raycaster._cast_ray game_raycaster 0 (3 / 10) game_player Map.game_map
    = Ret (hgt, sh, side)
    /\ (34 <= hgt <= 460800000)%Z /\ (40 <= sh <= 255)%Z
    /\ (side = 0 \/ side = 1)%Z.
Proof.
  destruct (cast_ray_range game_raycaster 0 (3 / 10) game_player Map.game_map
              eq_refl) as (hgt & sh & side & E & L & U & S & F).
  - unfold game_raycaster, SCREEN_HEIGHT. cbn. lia.
  - unfold game_player, TILE_SIZE. cbn [Player.x Map.num_cols Map.game_map]. lra.
  - unfold game_player, TILE_SIZE. cbn [Player.y Map.num_rows Map.game_map]. lra.
  - right. rewrite cos_0, Rabs_R1. apply Rle_trans with (/ 1).
    + apply Rinv_le_contravar; [lra | apply pow_R1_Rle; lra].
    + rewrite Rinv_1. lra.
  - left. apply sin_0.
  - exists hgt, sh, side. split; [exact E |].
    unfold game_raycaster, SCREEN_HEIGHT, Raycaster.MAX_DEPTH in L, U.
    cbn [Raycaster.__init__ Raycaster.screen_height] in L, U.
    split; [lia |]. split; [exact S | exact F].
Defined.

Lemma py_max_clamp (u v : R) : u < v -> py_max (Fin u) (Fin v) = Fin v.
Proof.
  intro H. unfold py_max. cbn [flt].
  destruct (Rlt_dec u v); [reflexivity | contradiction].
Qed.

(** X11. With a depth limit of zero or less the loop makes no pass: for a ray
    that is not vertical the cast returns, on every map, the clamp 0.0001 as
    distance with the loop variables as they were set up, face 0 and depth
    0. *)
Theorem cast_no_pass (max_depth : Z) (ray_angle player_angle : R)
  (player : Player.t) (m : Map.t) :
  (max_depth <= 0)%Z -> cos ray_angle <> 0 ->
  Raycaster.cast_distance true max_depth ray_angle player_angle player m
  = Ret (Fin (1 / 10000), snd (Raycaster.ray_setup ray_angle player))
  /\ Raycaster.hit_side (snd (Raycaster.ray_setup ray_angle player)) = 0%Z
  /\ Raycaster.depth (snd (Raycaster.ray_setup ray_angle player)) = 0%Z.
Proof.
  intros Hmd Hc.
  destruct (ray_setup_start ray_angle player) as (D0 & W0 & H0 & _).
  split; [| split; [exact H0 | exact D0]].
  unfold Raycaster.cast_distance.
  assert (P : Raycaster.perp_dist (fst (Raycaster.ray_setup ray_angle player))
                (snd (Raycaster.ray_setup ray_angle player))
              = Fin (1 / 10000)).
  { unfold Raycaster.perp_dist. rewrite H0. cbn [Z.eqb].
    unfold Raycaster.ray_setup. rewrite !int_of_floordiv.
    pose proof (Zfloor_bound (Player.x player / IZR TILE_SIZE)) as Bx.
    pose proof (Rabs_pos (1 / cos ray_angle)) as Ha.
    destruct (Req_dec_T (cos ray_angle) 0) as [E | _]; [contradiction |].
    destruct (Rlt_dec (cos ray_angle) 0); destruct (Rlt_dec (sin ray_angle) 0);
      cbn [fst snd Raycaster.side_dist_x Raycaster.delta_dist_x
           fmul fsub fadd fopp];
      unfold TILE_SIZE in *; apply py_max_clamp; nra. }
  destruct (Raycaster.ray_setup ray_angle player) as [r s0]. cbn [fst snd] in *.
  assert (L : Raycaster.dda_loop (Z.to_nat max_depth) max_depth m r s0 = Ret s0).
  { destruct (Z.to_nat max_depth); cbn [Raycaster.dda_loop];
      unfold Raycaster.dda_test; rewrite D0;
      destruct (Z.ltb_spec 0 max_depth); try lia;
      rewrite andb_false_r; reflexivity. }
  rewrite L. cbn [bind Raycaster.render_distance]. rewrite P. reflexivity.
Qed.

Lemma cast_no_pass_witness :
  Raycaster.cast_distance true 0 0 0 game_player Map.game_map
  = Ret (Fin (1 / 10000), snd (Raycaster.ray_setup 0 game_player))
  /\ Raycaster.hit_side (snd (Raycaster.ray_setup 0 game_player)) = 0%Z
  /\ Raycaster.depth (snd (Raycaster.ray_setup 0 game_player)) = 0%Z.
Proof.
  apply (cast_no_pass 0 0 0 game_player Map.game_map).
  - lia.
  - rewrite cos_0. lra.
Defined.

(** ** Drawing the walls *)

Local Open Scope Z_scope.

Lemma draw_walls_from_length (self : Renderer.t) (l : list (Z * Z)) :
  forall x0 : Z, length (Renderer.draw_walls_from self x0 l) = length l.
Proof.
  induction l as [| [wh sh] l IH]; intro x0; cbn [Renderer.draw_walls_from length].
  - reflexivity.
  - now rewrite IH.
Qed.

Lemma draw_walls_from_nth (self : Renderer.t) (l : list (Z * Z)) :
  forall (x0 : Z) (i : nat) (wh sh : Z),
    nth_error l i = Some (wh, sh) ->
    nth_error (Renderer.draw_walls_from self x0 l) i
    = Some (Renderer.mk_line (sh, sh, sh) (x0 + Z.of_nat i)
              (Renderer.half_height self - wh / 2) (x0 + Z.of_nat i)
              (Renderer.half_height self + wh / 2)).
Proof.
  induction l as [| [wh0 sh0] l IH]; intros x0 i wh sh Hi.
  - destruct i; discriminate.
  - destruct i as [| i]; cbn [nth_error Renderer.draw_walls_from] in *.
    + injection Hi as -> ->. do 2 f_equal; lia.
    + rewrite (IH (x0 + 1) i wh sh Hi). do 2 f_equal; lia.
Qed.

Lemma Ztrunc_pos (v : R) : (0 <= v)%R -> 0 <= Ztrunc v.
Proof. intro H. rewrite <- (Ztrunc_IZR 0). now apply Ztrunc_le. Qed.

(** X12. The walls of a frame are drawn one vertical line per column: for the
    list that [cast_all] returns on a rectangular map ([screen_width > 0],
    [screen_height >= 0]), [draw_walls] draws [screen_width] lines, the line
    of index [i] at [x = i], from [half_height - h // 2] down to
    [half_height + h // 2] with the top not below the bottom, in a grey
    whose three components are the shade, between 30 and 255. *)
Theorem draw_walls_frame (w h : Z) (f : R) (player : Player.t) (m : Map.t)
  (renderer : Renderer.t) :
  Map.rectangular m = true -> 0 < w -> 0 <= h ->
  exists ray_results,
    Raycaster.cast_all (Raycaster.__init__ w h f) player m = Ret ray_results
    /\ Z.of_nat (length (Renderer.draw_walls renderer ray_results)) = w
    /\ forall i, 0 <= i < w ->
         exists wall_height shade,
           nth_error ray_results (Z.to_nat i) = Some (wall_height, shade)
           /\ nth_error (Renderer.draw_walls renderer ray_results) (Z.to_nat i)
              = Some (Renderer.mk_line (shade, shade, shade)
                        i (Renderer.half_height renderer - wall_height / 2)
                        i (Renderer.half_height renderer + wall_height / 2))
           /\ Renderer.half_height renderer - wall_height / 2
              <= Renderer.half_height renderer + wall_height / 2
           /\ 30 <= shade <= 255.
Proof.
  intros Hm Hw Hh.
  destruct (cast_all_column w h f player m Hm Hw) as (l & El & Len & Col).
  exists l. split; [exact El |]. unfold Renderer.draw_walls.
  split; [now rewrite draw_walls_from_length |].
  intros i Hi. destruct (Col i Hi) as (e & Ne & q & side & Hq & Hs & _ & _ & Ee).
  subst e. do 2 eexists. split; [exact Ne |].
  split; [rewrite (draw_walls_from_nth _ _ 0 _ _ _ Ne); do 2 f_equal; lia |].
  cbn [Raycaster.__init__ Raycaster.screen_height].
  split.
  - assert (V : (0 <= 64 / q * IZR h)%R).
    { apply Rmult_le_pos; [| now apply IZR_le].
      unfold Rdiv. apply Rmult_le_pos; [lra |].
      apply Rlt_le, Rinv_0_lt_compat. lra. }
    pose proof (Ztrunc_pos _ V) as P.
    pose proof (Z.div_pos _ 2 P ltac:(lia)). lia.
  - pose proof (shade_value_range q) as S.
    pose proof (darkened_range _ S) as D.
    destruct (side =? 1); lia.
Qed.

Lemma draw_walls_frame_witness :
  exists ray_results,
    Raycaster.cast_all game_raycaster game_player Map.game_map = Ret ray_results
    /\ Z.of_nat (length (Renderer.draw_walls
                           (Renderer.__init__ SCREEN_WIDTH SCREEN_HEIGHT)
                           ray_results)) = SCREEN_WIDTH.
Proof.
  destruct (draw_walls_frame SCREEN_WIDTH SCREEN_HEIGHT FOV game_player
              Map.game_map (Renderer.__init__ SCREEN_WIDTH SCREEN_HEIGHT)
              eq_refl) as (l & El & Len & _).
  - unfold SCREEN_WIDTH. lia.
  - unfold SCREEN_HEIGHT. lia.
  - exists l. split; [exact El | exact Len].
Defined.

(** ** Events *)

Lemma handle_events_from_run (events : list Game.event) :
  forall total : Z,
    Game.handle_events_from events total
    = if existsb is_quit events then Game.SystemExit
      else Game.Return (total + fold_right (fun e acc => motion_x e + acc) 0 events).
Proof.
  induction events as [| e events IH]; intro total;
    cbn [Game.handle_events_from existsb fold_right].
  - f_equal. lia.
  - destruct e as [| key | rel_x rel_y |]; cbn [is_quit motion_x orb].
    + reflexivity.
    + destruct (key =? Game.K_ESCAPE); cbn [orb]; [reflexivity |].
      rewrite IH. destruct (existsb is_quit events); [reflexivity |].
      f_equal.
    + rewrite IH. destruct (existsb is_quit events); [reflexivity |].
      f_equal. lia.
    + rewrite IH. destruct (existsb is_quit events); [reflexivity |].
      f_equal.
Qed.

(** X13. [_handle_events] ends the process when the queue holds a [QUIT]
    event or a key press of escape, wherever it stands in the queue;
    otherwise it returns the sum of the horizontal motions of the mouse
    events of the queue, 0 for a queue without any. *)
Theorem handle_events_total (events : list Game.event) :
  Game._handle_events events
  = if existsb is_quit events then Game.SystemExit
    else Game.Return (fold_right (fun e acc => motion_x e + acc) 0 events).
Proof.
  unfold Game._handle_events. rewrite handle_events_from_run.
  destruct (existsb is_quit events); reflexivity.
Qed.

(** ** The point of the hit *)

Local Open Scope R_scope.

Lemma inv_abs_mult (d : R) :
  d <> 0 -> 0 < / Rabs d /\ / Rabs d * d = (if Rlt_dec d 0 then -1 else 1).
Proof.
  intro Hd. assert (Ha : 0 < Rabs d) by now apply Rabs_pos_lt.
  split; [now apply Rinv_0_lt_compat |].
  destruct (Rlt_dec d 0) as [N | N].
  - rewrite Rabs_left by exact N. field. lra.
  - rewrite Rabs_right by lra. field. lra.
Qed.

(** Along the other axis the point where the ray crosses a grid line of one
    axis lies within the cell. *)
Lemma crossing_in_cell (d pos u v : R) (cell : Z) :
  d <> 0 -> pos + v * d = next_line d cell ->
  u <= v -> v - / Rabs d <= u ->
  IZR cell <= pos + u * d <= IZR cell + 1.
Proof.
  intros Hd Hv L U. destruct (inv_abs_mult d Hd) as [Hp Hm].
  unfold next_line in Hv. destruct (Rlt_dec d 0) as [N | N].
  - assert (D : (v - u) * d >= -1) by nra. nra.
  - assert (P : 0 < d) by lra.
    assert (D : (v - u) * d <= 1) by nra. nra.
Qed.

Lemma next_line_step (d : R) (cell : Z) :
  d <> 0 ->
  next_line d cell + / Rabs d * d
  = next_line d (cell + (if Rlt_dec d 0 then -1 else 1))
  /\ next_line d cell = entry_line d (cell + (if Rlt_dec d 0 then -1 else 1)).
Proof.
  intro Hd. destruct (inv_abs_mult d Hd) as [_ Hm]. rewrite Hm.
  unfold next_line, entry_line. destruct (Rlt_dec d 0); rewrite plus_IZR; split; lra.
Qed.

Lemma dda_body_geom (c sn px py : R) (m : Map.t) (r : Raycaster.ray)
  (s s' : Raycaster.dda) :
  ~ (c = 0 /\ sn = 0) ->
  dda_geom c sn px py r s ->
  Raycaster.dda_body m r s = Ret s' ->
  dda_geom c sn px py r s' /\ hit_face c sn px py r s'.
Proof.
  intros Hnz (Sx & Sy & Ax & Ay & Ord) B. unfold Raycaster.dda_body in B.
  destruct (flt (Raycaster.side_dist_x s) (Raycaster.side_dist_y s)) eqn:F;
    cbn [Raycaster.map_col Raycaster.map_row Raycaster.hit_side
         Raycaster.depth Raycaster.wall_hit
         Raycaster.side_dist_x Raycaster.side_dist_y] in B;
    match type of B with context [Map.get_tile ?u ?v ?w] =>
      destruct (Map.get_tile u v w) end; cbn [bind] in B; try discriminate;
    injection B as <-; unfold dda_geom, hit_face;
    cbn [Raycaster.map_col Raycaster.map_row Raycaster.hit_side
         Raycaster.depth Raycaster.wall_hit
         Raycaster.side_dist_x Raycaster.side_dist_y].
  - (* the x axis is advanced *)
    destruct Ax as [(Ec & Dx & Ex & _) | (Hc & Dx & u & Ex & Hu & Gx)].
    { rewrite Ex in F. destruct (Raycaster.side_dist_y s); discriminate. }
    destruct (inv_abs_mult c Hc) as [Hp _].
    destruct (next_line_step c (Raycaster.map_col s) Hc) as [Nx Ne].
    rewrite <- Sx in Nx, Ne. rewrite Ex, Dx in *. cbn [fadd fsub fopp].
    assert (Huv : forall v, Raycaster.side_dist_y s = Fin v ->
                            u < v /\ v - / Rabs sn <= u).
    { intros v Ev. rewrite Ev in F. apply flt_Fin in F.
      destruct (Ord u v eq_refl Ev). auto. }
    split.
    + split; [exact Sx |]. split; [exact Sy |]. split.
      { right. split; [exact Hc |]. split; [reflexivity |].
        exists (u + / Rabs c). split; [reflexivity |]. split; [lra |].
        rewrite <- Nx, <- Gx. ring. }
      split; [exact Ay |].
      intros u' v Eu Ev. injection Eu as <-.
      destruct (Huv v Ev). lra.
    + exists (u + / Rabs c + - / Rabs c). split; [lra |]. left.
      split; [reflexivity |]. split; [reflexivity |].
      replace (u + / Rabs c + - / Rabs c) with u by ring.
      split; [rewrite <- Ne; exact Gx |].
      destruct Ay as [(Es & _ & _ & Cy) | (Hs & _ & v & Ey & _ & Gy)].
      * rewrite Es, Rmult_0_r, Rplus_0_r. exact Cy.
      * destruct (Huv v Ey). apply (crossing_in_cell sn py u v); auto; lra.
  - (* the y axis is advanced *)
    destruct Ay as [(Es & Dy & Ey & _) | (Hs & Dy & v & Ey & Hv & Gy)].
    { destruct Ax as [(Ec & _) | (Hc & _ & u & Ex & _)]; [tauto |].
      rewrite Ex, Ey in F. discriminate. }
    destruct (inv_abs_mult sn Hs) as [Hp _].
    destruct (next_line_step sn (Raycaster.map_row s) Hs) as [Nx Ne].
    rewrite <- Sy in Nx, Ne. rewrite Ey, Dy in *. cbn [fadd fsub fopp].
    assert (Huv : forall u, Raycaster.side_dist_x s = Fin u ->
                            v <= u /\ u - / Rabs c <= v).
    { intros u Eu. rewrite Eu in F.
      destruct (Ord u v Eu eq_refl). split; [| assumption].
      destruct (Rle_or_lt v u) as [L | L]; [exact L |].
      apply flt_Fin in L. congruence. }
    split.
    + split; [exact Sx |]. split; [exact Sy |]. split; [exact Ax |]. split.
      { right. split; [exact Hs |]. split; [reflexivity |].
        exists (v + / Rabs sn). split; [reflexivity |]. split; [lra |].
        rewrite <- Nx, <- Gy. ring. }
      intros u v' Eu Ev. injection Ev as <-.
      destruct (Huv u Eu). lra.
    + exists (v + / Rabs sn + - / Rabs sn). split; [lra |]. right.
      split; [reflexivity |]. split; [reflexivity |].
      replace (v + / Rabs sn + - / Rabs sn) with v by ring.
      split; [rewrite <- Ne; exact Gy |].
      destruct Ax as [(Ec & _ & _ & Cx) | (Hc & _ & u & Ex & _ & Gx)].
      * rewrite Ec, Rmult_0_r, Rplus_0_r. exact Cx.
      * destruct (Huv u Ex). apply (crossing_in_cell c px v u); auto; lra.
Qed.

(** One axis as [ray_setup] sets it up. *)
Lemma setup_axis_geom (d pos : R) (cell : Z) :
  IZR cell <= pos < IZR cell + 1 ->
  let delta := if Req_dec_T d 0 then PInf else Fin (Rabs (1 / d)) in
  let side := if Rlt_dec d 0 then fmul (Fin (pos - IZR cell)) delta
              else fmul (Fin (IZR cell + 1 - pos)) delta in
  axis_geom d pos delta side cell
  /\ forall u, side = Fin u -> 0 <= u <= / Rabs d.
Proof.
  intros Hc delta side. subst delta side.
  destruct (Req_dec_T d 0) as [E | E].
  - subst d. destruct (Rlt_dec 0 0) as [N | _]; [lra |].
    cbn [fmul]. rewrite inf_signed_pos by lra. split.
    + left. repeat split; lra.
    + intros u Hu. discriminate.
  - destruct (inv_abs_mult d E) as [Hp Hm].
    assert (Ed : Rabs (1 / d) = / Rabs d).
    { unfold Rdiv. rewrite Rmult_1_l. now apply Rabs_inv. }
    rewrite Ed.
    destruct (Rlt_dec d 0) as [N | N]; cbn [fmul]; split.
    + right. split; [exact E |]. split; [reflexivity |].
      eexists. split; [reflexivity |]. split; [nra |].
      rewrite Rmult_assoc, Hm. unfold next_line.
      destruct (Rlt_dec d 0); [ring | contradiction].
    + intros u Hu. injection Hu as <-. nra.
    + right. split; [exact E |]. split; [reflexivity |].
      eexists. split; [reflexivity |]. split; [nra |].
      rewrite Rmult_assoc, Hm. unfold next_line.
      destruct (Rlt_dec d 0); [contradiction | ring].
    + intros u Hu. injection Hu as <-. nra.
Qed.

Lemma ray_setup_geom (ray_angle : R) (player : Player.t) :
  dda_geom (cos ray_angle) (sin ray_angle)
    (Player.x player / IZR TILE_SIZE) (Player.y player / IZR TILE_SIZE)
    (fst (Raycaster.ray_setup ray_angle player))
    (snd (Raycaster.ray_setup ray_angle player)).
Proof.
  pose proof (Zfloor_bound (Player.x player / IZR TILE_SIZE)) as Bx.
  pose proof (Zfloor_bound (Player.y player / IZR TILE_SIZE)) as By.
  pose proof (setup_axis_geom (cos ray_angle) _ _ Bx) as Hx.
  pose proof (setup_axis_geom (sin ray_angle) _ _ By) as Hy.
  cbv zeta in Hx, Hy.
  unfold Raycaster.ray_setup, dda_geom. rewrite !int_of_floordiv.
  destruct (Rlt_dec (cos ray_angle) 0); destruct (Rlt_dec (sin ray_angle) 0);
    cbn [fst snd Raycaster.step_x Raycaster.step_y Raycaster.delta_dist_x
         Raycaster.delta_dist_y Raycaster.side_dist_x Raycaster.side_dist_y
         Raycaster.map_col Raycaster.map_row];
    destruct Hx as [Ax Ux]; destruct Hy as [Ay Uy];
    (split; [reflexivity |]); (split; [reflexivity |]);
    (split; [exact Ax |]); (split; [exact Ay |]);
    intros u v Eu Ev; specialize (Ux u Eu); specialize (Uy v Ev); lra.
Qed.

(** X14. The distance of a cast is the length of the ray up to the wall
    face. On a rectangular map and for a depth limit of at least one, the
    loop returns with a length [d >= 0] such that [perp_dist] is [d] clamped
    from below at 0.0001, and the point at length [d] along the ray from the
    player, [(x + d cos a, y + d sin a)], lies on the face of the cell the
    loop stands in through which the ray entered it: on its vertical side
    towards the player for face 0, on its horizontal side for face 1, and
    within the span of the cell along the other axis. *)
Theorem dda_hit_on_face (max_depth : Z) (ray_angle : R) (player : Player.t)
  (m : Map.t) :
  Map.rectangular m = true -> (1 <= max_depth)%Z ->
  let r := fst (Raycaster.ray_setup ray_angle player) in
  let s0 := snd (Raycaster.ray_setup ray_angle player) in
  let ts := IZR TILE_SIZE in
  exists s d,
    Raycaster.dda_loop (Z.to_nat max_depth) max_depth m r s0 = Ret s
    /\ 0 <= d
    /\ Raycaster.perp_dist r s = py_max (Fin d) (Fin (1 / 10000))
    /\ ((Raycaster.hit_side s = 0%Z
         /\ Player.x player + d * cos ray_angle
            = ts * entry_line (cos ray_angle) (Raycaster.map_col s)
         /\ ts * IZR (Raycaster.map_row s)
            <= Player.y player + d * sin ray_angle
            <= ts * (IZR (Raycaster.map_row s) + 1))
        \/ (Raycaster.hit_side s = 1%Z
            /\ Player.y player + d * sin ray_angle
               = ts * entry_line (sin ray_angle) (Raycaster.map_row s)
            /\ ts * IZR (Raycaster.map_col s)
               <= Player.x player + d * cos ray_angle
               <= ts * (IZR (Raycaster.map_col s) + 1))).
Proof.
  intros Hm Hmd r s0 ts.
  destruct (dda_loop_result max_depth ray_angle player m Hm Hmd)
    as (s & n & L & Hn & I). fold r s0 in L.
  assert (Dn : Raycaster.depth s = n).
  { destruct I as (kx & ky & _ & _ & _ & _ & _ & D & _). exact D. }
  assert (Hnz : ~ (cos ray_angle = 0 /\ sin ray_angle = 0)).
  { intros [Ec Es]. pose proof (sin2_cos2 ray_angle) as Q.
    rewrite Ec, Es in Q. unfold Rsqr in Q. lra. }
  set (px := Player.x player / IZR TILE_SIZE).
  set (py := Player.y player / IZR TILE_SIZE).
  assert (G : dda_geom (cos ray_angle) (sin ray_angle) px py r s
              /\ ((0 < Raycaster.depth s)%Z ->
                  hit_face (cos ray_angle) (sin ray_angle) px py r s)).
  { apply (dda_loop_invariant
             (fun s => dda_geom (cos ray_angle) (sin ray_angle) px py r s
                       /\ ((0 < Raycaster.depth s)%Z ->
                           hit_face (cos ray_angle) (sin ray_angle) px py r s))
             max_depth m r) with (fuel := Z.to_nat max_depth) (s := s0);
      [| | exact L].
    - intros s1 s2 [G1 _] _ B.
      destruct (dda_body_geom _ _ px py m r s1 s2 Hnz G1 B) as [G2 F2].
      split; [exact G2 | intros _; exact F2].
    - split; [apply ray_setup_geom |].
      destruct (ray_setup_start ray_angle player) as (D0 & _).
      fold s0 in D0. rewrite D0. lia. }
  destruct G as [_ F]. destruct (F ltac:(lia)) as (t & Ht & Face).
  exists s, (t * ts). split; [exact L |].
  assert (Hts : ts = 64) by (subst ts; unfold TILE_SIZE; reflexivity).
  split; [rewrite Hts; lra |].
  assert (Ex : Player.x player = px * ts)
    by (subst px ts; unfold TILE_SIZE; field).
  assert (Ey : Player.y player = py * ts)
    by (subst py ts; unfold TILE_SIZE; field).
  unfold Raycaster.perp_dist. fold ts.
  destruct Face as [(Hs & Et & Fx & Fy) | (Hs & Et & Fy & Fx)];
    rewrite Hs, Et; cbn [Z.eqb fmul]; (split; [reflexivity |]);
    [left | right]; (split; [reflexivity |]); rewrite Ex, Ey, Hts in *;
    split; nra.
Qed.

Lemma dda_hit_on_face_witness :
  exists s d,
    Raycaster.dda_loop (Z.to_nat Raycaster.MAX_DEPTH) Raycaster.MAX_DEPTH
      Map.game_map (fst (Raycaster.ray_setup (3 / 10) game_player))
      (snd (Raycaster.ray_setup (3 / 10) game_player)) = Ret s
    /\ 0 <= d
    /\ Raycaster.perp_dist (fst (Raycaster.ray_setup (3 / 10) game_player)) s
       = py_max (Fin d) (Fin (1 / 10000)).
Proof.
  destruct (dda_hit_on_face Raycaster.MAX_DEPTH (3 / 10) game_player
              Map.game_map eq_refl) as (s & d & L & Hd & P & _).
  - unfold Raycaster.MAX_DEPTH. lia.
  - exists s, d. split; [exact L |]. split; [exact Hd | exact P].
Defined.
